(** * inwire: the transient marker, the resolver core and its two batch
    lifecycle operations (preload, dispose).

    [Transient] embeds [src/infrastructure/transient.ts].  The resolver,
    preloader and disposer are exercised by the test suites of the
    repository; their model is written in the sections that follow. *)

From Stdlib Require Import ZArith Lia.
From stdpp Require Import base list sets strings.

Set Default Proof Using "Type".
Set Warnings "-clear-no-such-hyp".
#[local] Set Warnings "-register-all".
Local Open Scope string_scope.
Local Open Scope list_scope.

Definition key := string.

(* ------------------------------------------------------------------ *)
(** ** The transient marker ([src/infrastructure/transient.ts]) *)

Module Transient.

(** Primitive values a property can hold. *)
Inductive prim :=
| PUndefined
| PNull
| PBool (b : bool)
| PNumber (z : Z)
| PString (s : string).

(** A function object: what calling it does, and the value of its
    [TRANSIENT_MARKER] property ([None]: the property is absent). *)
Record Factory (C T : Type) := mkFactory {
  call : C -> T;
  marker : option prim
}.
Arguments mkFactory {C T} _ _.
Arguments call {C T} _ _.
Arguments marker {C T} _.

(** The values [isTransient] can be handed ([factory: unknown]). *)
Inductive jsval (C T : Type) :=
| JPrim (p : prim)
| JObject (mark : option prim)
| JFunction (f : Factory C T).
Arguments JPrim {C T} _.
Arguments JObject {C T} _.
Arguments JFunction {C T} _.

Definition is_true (p : prim) : bool :=
  match p with PBool true => true | _ => false end.

(** [transient(factory)]: a wrapper that forwards to [factory] and
    carries [TRANSIENT_MARKER = true]. *)
Definition transient {C T} (factory : Factory C T) : Factory C T :=
  let wrapper := mkFactory (fun container => call factory container) None in
  mkFactory (call wrapper) (Some (PBool true)).

(** [isTransient(factory)]:
    [typeof factory === 'function' && TRANSIENT_MARKER in factory
     && factory[TRANSIENT_MARKER] === true]. *)
Definition isTransient {C T} (factory : jsval C T) : bool :=
  match factory with
  | JFunction f =>
      match marker f with
      | Some p => is_true p
      | None => false
      end
  | _ => false
  end.

(** The values the claim singles out: functions whose marker property
    is exactly [true]. *)
Definition carries_marker {C T} (v : jsval C T) : Prop :=
  exists f, v = JFunction f /\ marker f = Some (PBool true).

End Transient.

Import Transient.

(* ------------------------------------------------------------------ *)
(** ** Insertion-ordered containers (JavaScript [Map] and [Set]) *)

Section OrderedMap.
Context {V : Type}.

(** [Map.prototype.get]. *)
Fixpoint mget (m : list (key * V)) (k : key) : option V :=
  match m with
  | [] => None
  | (k', v) :: m' => if decide (k = k') then Some v else mget m' k
  end.

(** [Map.prototype.has]. *)
Definition mhas (m : list (key * V)) (k : key) : bool :=
  match mget m k with Some _ => true | None => false end.

(** [Map.prototype.set]: an existing key keeps its position, a new
    key goes last. *)
Fixpoint mset (m : list (key * V)) (k : key) (v : V) : list (key * V) :=
  match m with
  | [] => [(k, v)]
  | (k', v') :: m' =>
      if decide (k = k') then (k, v) :: m' else (k', v') :: mset m' k v
  end.

(** [Map.prototype.delete]. *)
Definition mdel (m : list (key * V)) (k : key) : list (key * V) :=
  filter (fun kv => kv.1 <> k) m.

(** [[...map.keys()]]. *)
Definition mkeys (m : list (key * V)) : list key := m.*1.
End OrderedMap.

(** [Set.prototype.has / add / delete]. *)
Definition shas (s : list key) (k : key) : bool := bool_decide (k ∈ s).
Definition sadd (s : list key) (k : key) : list key :=
  if shas s k then s else s ++ [k].
Definition sdel (s : list key) (k : key) : list key :=
  filter (fun k' => k' <> k) s.

(* ------------------------------------------------------------------ *)
(** ** Data model of the resolver *)

(** What a lifecycle hook ([onInit], [onDestroy]) does when invoked:
    it returns, throws, or hands back a promise that fulfils or
    rejects. *)
Inductive hook :=
| HookReturns
| HookThrows (msg : string)
| HookFulfils
| HookRejects (msg : string).

(** The shape of an object built by a factory: some payload and the two
    optional lifecycle capabilities. *)
Record object := Object {
  payload : Z;
  onInit : option hook;
  onDestroy : option hook
}.

(** Resolved values.  Primitives compare by value; an object carries the
    address it was allocated at, which is its identity. *)
Inductive value :=
| VUndefined
| VPrim (z : Z)
| VObject (addr : nat) (o : object).

Definition init_hook (v : value) : option hook :=
  match v with VObject _ o => onInit o | _ => None end.
Definition destroy_hook (v : value) : option hook :=
  match v with VObject _ o => onDestroy o | _ => None end.

(** The error taxonomy.  [Foreign] is an exception raised by user code
    (a factory body or a hook), not one of the system's own kinds. *)
Inductive error :=
| ProviderNotFound (k : key) (chain : list key) (registered : list key)
    (suggestion : option key)
| CircularDependency (k : key) (chain : list key)
| UndefinedReturn (k : key) (chain : list key)
| FactoryError (k : key) (chain : list key) (cause : error)
| StuckKeys (ks : list key)
| Foreign (msg : string)
| AggregateError (errors : list error).

Definition is_container_error (e : error) : bool :=
  match e with
  | ProviderNotFound _ _ _ _ | CircularDependency _ _
  | UndefinedReturn _ _ | FactoryError _ _ _ => true
  | _ => false
  end.

(** The catch clause of [resolve]: the system's own error kinds pass
    through, anything else is wrapped as a factory error. *)
Definition wrap (k : key) (chain : list key) (e : error) : error :=
  if is_container_error e then e else FactoryError k chain e.

(** Result of running a piece of the program: a value, an exception, or
    the evaluation budget of the model ran out. *)
Inductive outcome (A : Type) :=
| Returned (a : A)
| Thrown (e : error)
| OutOfFuel.
Arguments Returned {A} _.
Arguments Thrown {A} _.
Arguments OutOfFuel {A}.

(** Diagnostic records. *)
Inductive warning :=
| ScopeMismatch (singleton transient_dep : key)
| AsyncInitError (k : key) (message : string).

Definition warning_mentions (ks : list key) (w : warning) : bool :=
  match w with
  | ScopeMismatch s t => shas ks s || shas ks t
  | AsyncInitError k _ => shas ks k
  end.

(** The tracking accessor handed to a factory; it is scoped to one
    resolution call, identified by the chain of that call. *)
Inductive proxy := TrackingProxy (chain : list key).

(** A factory body, seen through the accessor: it returns a value it
    already holds, builds a new object, throws, or reads a key from the
    accessor and goes on with what the read produced.  A read inside
    [try { } catch (e) { }] goes on with the handler when the read
    fails. *)
Inductive fprog :=
| Return (v : value)
| Construct (o : object)
| Raise (msg : string)
| Read (k : key) (cont : value -> fprog)
| TryRead (k : key) (cont : value -> fprog) (handler : error -> fprog).

Definition factory := Factory proxy fprog.
Definition factory_is_transient (f : factory) : bool :=
  isTransient (JFunction f).

(** Observable steps, tagged with the depth of the resolver in its scope
    chain (the root has depth 0). *)
Inductive event :=
| EvFactory (scope : nat) (k : key)
| EvInit (scope : nat) (k : key)
| EvInitSettled (scope : nat) (k : key)
| EvDestroy (scope : nat) (k : key).

(** Modelled from the spec: the private state of one Resolver (the class
    lives in [infrastructure/proxy-handler.js], which is not among the
    sources).  [pendingInit] holds the rejection handlers attached to
    promises returned by [onInit] that have not run yet; [validator] is
    the key-suggestion collaborator. *)
Record resolver := Resolver {
  factories : list (key * factory);
  cache : list (key * value);
  resolving : list key;
  depGraph : list (key * list key);
  initCalled : list key;
  warnings : list warning;
  deferOnInit : bool;
  pendingInit : list (key * string);
  validator : key -> list key -> option key
}.

Definition set_cache (f : list (key * value) -> list (key * value))
    (r : resolver) : resolver :=
  Resolver (factories r) (f (cache r)) (resolving r) (depGraph r)
    (initCalled r) (warnings r) (deferOnInit r) (pendingInit r) (validator r).
Definition set_resolving (f : list key -> list key) (r : resolver) : resolver :=
  Resolver (factories r) (cache r) (f (resolving r)) (depGraph r)
    (initCalled r) (warnings r) (deferOnInit r) (pendingInit r) (validator r).
Definition set_depGraph (f : list (key * list key) -> list (key * list key))
    (r : resolver) : resolver :=
  Resolver (factories r) (cache r) (resolving r) (f (depGraph r))
    (initCalled r) (warnings r) (deferOnInit r) (pendingInit r) (validator r).
Definition set_initCalled (f : list key -> list key) (r : resolver) : resolver :=
  Resolver (factories r) (cache r) (resolving r) (depGraph r)
    (f (initCalled r)) (warnings r) (deferOnInit r) (pendingInit r) (validator r).
Definition set_warnings (f : list warning -> list warning) (r : resolver)
    : resolver :=
  Resolver (factories r) (cache r) (resolving r) (depGraph r)
    (initCalled r) (f (warnings r)) (deferOnInit r) (pendingInit r) (validator r).
Definition setDeferOnInit (b : bool) (r : resolver) : resolver :=
  Resolver (factories r) (cache r) (resolving r) (depGraph r)
    (initCalled r) (warnings r) b (pendingInit r) (validator r).
Definition set_pendingInit (f : list (key * string) -> list (key * string))
    (r : resolver) : resolver :=
  Resolver (factories r) (cache r) (resolving r) (depGraph r)
    (initCalled r) (warnings r) (deferOnInit r) (f (pendingInit r)) (validator r).

(** A resolver together with its ancestors (nearest parent first) and
    the next free object address. *)
Record world := World {
  self : resolver;
  ancestors : list resolver;
  next_addr : nat
}.

Definition with_self (f : resolver -> resolver) (w : world) : world :=
  World (f (self w)) (ancestors w) (next_addr w).

Definition scope_id (w : world) : nat := length (ancestors w).

(** A new resolver over a registry, with nothing resolved. *)
Definition new_resolver (fs : list (key * factory))
    (v : key -> list key -> option key) : resolver :=
  Resolver fs [] [] [] [] [] false [] v.

(* ------------------------------------------------------------------ *)
(** ** The resolver *)

(** [getAllRegisteredKeys]: local keys, then those of the ancestors. *)
Fixpoint registered_keys (rs : list resolver) : list key :=
  match rs with
  | [] => []
  | r :: rs' => remove_dups (mkeys (factories r) ++ registered_keys rs')
  end.
Definition getAllRegisteredKeys (w : world) : list key :=
  registered_keys (self w :: ancestors w).

(** The factory a key resolves through: the nearest registration in the
    scope chain. *)
Fixpoint find_factory (rs : list resolver) (k : key) : option factory :=
  match rs with
  | [] => None
  | r :: rs' =>
      match mget (factories r) k with
      | Some f => Some f
      | None => find_factory rs' k
      end
  end.

Definition scope_mismatches (w : world) (k : key) (deps : list key)
    : list warning :=
  omap (fun dep =>
          match find_factory (self w :: ancestors w) dep with
          | Some f =>
              if factory_is_transient f then Some (ScopeMismatch k dep)
              else None
          | None => None
          end) deps.

Definition resolution : Type := outcome value * world * list event.

Section RunFactory.
(** [resolveFn], the resolver the tracking accessor forwards to. *)
Variable resolveFn : key -> list key -> world -> resolution.

(** Running a factory body against the tracking accessor: every read
    appends its key to the captured list and forwards to [resolveFn];
    a failing read ends the body with that failure, unless the body
    catches it. *)
Fixpoint run_factory (p : fprog) (chain deps : list key) (w : world)
    (tr : list event) : outcome value * list key * world * list event :=
  match p with
  | Return v => (Returned v, deps, w, tr)
  | Construct o =>
      (Returned (VObject (next_addr w) o), deps,
       World (self w) (ancestors w) (S (next_addr w)), tr)
  | Raise m => (Thrown (Foreign m), deps, w, tr)
  | Read k cont =>
      match resolveFn k chain w with
      | (Returned v, w', t) => run_factory (cont v) chain (deps ++ [k]) w' (tr ++ t)
      | (Thrown e, w', t) => (Thrown e, deps ++ [k], w', tr ++ t)
      | (OutOfFuel, w', t) => (OutOfFuel, deps ++ [k], w', tr ++ t)
      end
  | TryRead k cont handler =>
      match resolveFn k chain w with
      | (Returned v, w', t) => run_factory (cont v) chain (deps ++ [k]) w' (tr ++ t)
      | (Thrown e, w', t) =>
          run_factory (handler e) chain (deps ++ [k]) w' (tr ++ t)
      | (OutOfFuel, w', t) => (OutOfFuel, deps ++ [k], w', tr ++ t)
      end
  end.
End RunFactory.

(** The lifecycle part of step 4: fire [onInit] unless deferred, already
    fired for this key, or absent.  A returned promise is not awaited;
    its rejection handler is queued. *)
Definition fire_init (k : key) (v : value) (w : world) : resolution :=
  if deferOnInit (self w) then (Returned v, w, [])
  else if shas (initCalled (self w)) k then (Returned v, w, [])
  else
    match init_hook v with
    | None => (Returned v, w, [])
    | Some h =>
        let w1 := with_self (set_initCalled (fun s => sadd s k)) w in
        let ev := [EvInit (scope_id w) k] in
        match h with
        | HookReturns | HookFulfils => (Returned v, w1, ev)
        | HookThrows m => (Thrown (Foreign m), w1, ev)
        | HookRejects m =>
            (Returned v,
             with_self (set_pendingInit (fun p => p ++ [(k, m)])) w1, ev)
        end
    end.

(** What step 4 does with the value the factory produced. *)
Definition complete (k : key) (f : factory) (v : value) (deps : list key)
    (chain : list key) (w : world) : resolution :=
  match v with
  | VUndefined => (Thrown (UndefinedReturn k chain), w, [])
  | _ =>
      let w1 := with_self (set_depGraph (fun g => mset g k deps)) w in
      let w2 :=
        if factory_is_transient f then w1
        else
          with_self
            (fun r =>
               set_cache (fun c => mset c k v)
                 (set_warnings (fun ws => ws ++ scope_mismatches w1 k deps) r))
            w1 in
      fire_init k v w2
  end.

(** Modelled from the spec: the body of [Resolver.resolve(key, chain)]
    (section 4.3 of the specification; the method lives in the absent
    [infrastructure/proxy-handler.js]).  [resolveFn] is the method
    itself, as the tracking accessor and the parent delegation call it.
    Step 1: a cached singleton is returned.  Step 2: an unregistered key
    goes to the parent, or fails.  Step 3: an active key is a cycle.
    Step 4: the factory runs between [enter] and [leave]. *)
Definition resolve_step (resolveFn : key -> list key -> world -> resolution)
    (k : key) (chain : list key) (w : world) : resolution :=
  let r := self w in
  match mget (factories r) k with
  | Some f =>
      match (if factory_is_transient f then None else mget (cache r) k) with
      | Some v => (Returned v, w, [])
      | None =>
          if shas (resolving r) k then
            (Thrown (CircularDependency k (chain ++ [k])), w, [])
          else
            let w0 := with_self (set_resolving (fun s => sadd s k)) w in
            let currentChain := chain ++ [k] in
            let '(res, deps, w1, t1) :=
              run_factory resolveFn (call f (TrackingProxy currentChain))
                currentChain [] w0 [EvFactory (scope_id w) k] in
            let '(res2, w2, t2) :=
              match res with
              | Returned v => complete k f v deps currentChain w1
              | _ => (res, w1, [])
              end in
            let res3 :=
              match res2 with
              | Thrown e => Thrown (wrap k currentChain e)
              | _ => res2
              end in
            (res3, with_self (set_resolving (fun s => sdel s k)) w2, t1 ++ t2)
      end
  | None =>
      match ancestors w with
      | [] =>
          let all := getAllRegisteredKeys w in
          (Thrown (ProviderNotFound k chain all (validator r k all)), w, [])
      | p :: ps =>
          let '(res, w', t) := resolveFn k chain (World p ps (next_addr w)) in
          (res, World r (self w' :: ancestors w') (next_addr w'), t)
      end
  end.

(** [resolve], with [fuel] bounding the nesting of resolutions. *)
Fixpoint resolve (fuel : nat) (k : key) (chain : list key) (w : world)
    {struct fuel} : resolution :=
  match fuel with
  | 0 => (OutOfFuel, w, [])
  | S n => resolve_step (resolve n) k chain w
  end.

(** A budget that is enough for every resolution in [w]: each nested
    resolution either marks one more registered key active or moves to a
    parent. *)
Definition fuel_for (w : world) : nat :=
  S (length (factories (self w)) +
     foldr (fun r n => S (length (factories r)) + n) 0 (ancestors w)).

(** Other operations of the resolver. *)
Definition isResolved (r : resolver) (k : key) : bool := mhas (cache r) k.
Definition getResolvedKeys (r : resolver) : list key := mkeys (cache r).
Definition getWarnings (r : resolver) : list warning := warnings r.
Definition clearInitState (ks : list key) (r : resolver) : resolver :=
  set_initCalled (fun s => foldl sdel s ks) r.
Definition clearAllInitState (r : resolver) : resolver :=
  set_initCalled (fun _ => []) r.
Definition clearDepGraph (ks : list key) (r : resolver) : resolver :=
  set_depGraph (fun g => foldl mdel g ks) r.
Definition clearAllDepGraph (r : resolver) : resolver :=
  set_depGraph (fun _ => []) r.
Definition clearWarnings (r : resolver) : resolver :=
  set_warnings (fun _ => []) r.
Definition clearWarningsForKeys (ks : list key) (r : resolver) : resolver :=
  set_warnings (filter (fun w => warning_mentions ks w = false)) r.

(** The event loop gets to run: queued rejection handlers of [onInit]
    promises record their failure as warnings. *)
Definition run_microtasks (r : resolver) : resolver :=
  set_pendingInit (fun _ => [])
    (set_warnings
       (fun ws => ws ++ map (fun km => AsyncInitError km.1 km.2) (pendingInit r))
       r).

(** Modelled from the spec: [reset(...keys)] of the container (absent
    [application/container-proxy]): drop the cache entries, the init
    flags, the recorded edges and the warnings of the given keys; with
    no key, of all keys. *)
Definition reset (ks : list key) (r : resolver) : resolver :=
  match ks with
  | [] =>
      clearWarnings (clearAllDepGraph (clearAllInitState
        (set_cache (fun _ => []) r)))
  | _ =>
      clearWarningsForKeys ks (clearDepGraph ks (clearInitState ks
        (set_cache (fun c => foldl mdel c ks) r)))
  end.

(* ------------------------------------------------------------------ *)
(** ** Batch lifecycle operations *)

(** The recorded edges of a key ([graph.get(key) ?? []]). *)
Definition deps_of (g : list (key * list key)) (k : key) : list key :=
  default [] (mget g k).

(** Depth-first traversal with an explicit stack: a key is recorded the
    first time it is met and its recorded edges are explored before the
    keys that were waiting. *)
Fixpoint dfs (fuel : nat) (g : list (key * list key)) (stack visited : list key)
    : list key :=
  match fuel with
  | 0 => visited
  | S n =>
      match stack with
      | [] => visited
      | k :: rest =>
          if shas visited k then dfs n g rest visited
          else dfs n g (deps_of g k ++ rest) (visited ++ [k])
      end
  end.

Definition edge_count (g : list (key * list key)) : nat :=
  foldr (fun kd n => length kd.2 + n) 0 g.

(** Step 5 of preload: the transitive closure of the requested keys. *)
Definition closure (g : list (key * list key)) (requested : list key)
    : list key :=
  dfs (length requested + edge_count g) g requested [].

(** A key is ready once each of its dependencies inside the closure has
    been placed in an earlier level. *)
Definition ready (g : list (key * list key)) (cl placed : list key) (k : key)
    : bool :=
  forallb (fun d => negb (shas cl d) || shas placed d) (deps_of g k).

(** Step 6 of preload: Kahn's partition into levels.  Returns the levels
    and the keys that could not be placed. *)
Fixpoint kahn (fuel : nat) (g : list (key * list key))
    (cl remaining placed : list key) : list (list key) * list key :=
  match fuel with
  | 0 => ([], remaining)
  | S n =>
      match filter (fun k => ready g cl placed k = true) remaining with
      | [] => ([], remaining)
      | level =>
          let '(levels, residual) :=
            kahn n g cl (list_difference remaining level) (placed ++ level) in
          (level :: levels, residual)
      end
  end.

Definition topo_levels (g : list (key * list key)) (cl : list key)
    : list (list key) * list key :=
  kahn (length cl) g cl cl [].

Definition hook_failure (h : hook) : option error :=
  match h with
  | HookThrows m | HookRejects m => Some (Foreign m)
  | HookReturns | HookFulfils => None
  end.

(** The synchronous part of [callOnInit(key)]: nothing if the key is
    already initialized or not cached; otherwise the hook (if any) is
    invoked and the key marked. *)
Definition callOnInit_start (k : key) (acc : resolver * list (key * hook))
    : resolver * list (key * hook) :=
  let '(r, started) := acc in
  if shas (initCalled r) k then acc
  else
    match mget (cache r) k with
    | None => acc
    | Some v =>
        match init_hook v with
        | None => acc
        | Some h => (set_initCalled (fun s => sadd s k) r, started ++ [(k, h)])
        end
    end.

Definition failed_keys (started : list (key * hook)) : list key :=
  omap (fun kh => match hook_failure kh.2 with
                  | Some _ => Some kh.1
                  | None => None
                  end) started.

(** Step 7 for one level: every member is started, then all outcomes are
    awaited; a failed key does not stay marked as initialized. *)
Definition init_level (sid : nat) (level : list key) (r : resolver)
    : resolver * list error * list event :=
  let '(r1, started) := foldl (fun acc k => callOnInit_start k acc) (r, []) level in
  let r2 := set_initCalled (fun s => foldl sdel s (failed_keys started)) r1 in
  (r2, omap (fun kh => hook_failure kh.2) started,
   map (EvInit sid) started.*1 ++ map (EvInitSettled sid) started.*1).

Fixpoint init_levels (sid : nat) (levels : list (list key)) (r : resolver)
    : resolver * list error * list event :=
  match levels with
  | [] => (r, [], [])
  | level :: rest =>
      let '(r1, errs1, t1) := init_level sid level r in
      let '(r2, errs2, t2) := init_levels sid rest r1 in
      (r2, errs1 ++ errs2, t1 ++ t2)
  end.

(** Steps 8 of preload and the end of dispose: what a batch operation
    does with the failures it collected. *)
Definition settle (errs : list error) : outcome unit :=
  match errs with
  | [] => Returned tt
  | [e] => Thrown e
  | _ => Thrown (AggregateError errs)
  end.

(** Step 3 of preload: resolve the requested keys in order, stopping at
    the first failure. *)
Fixpoint resolve_all (fuel : nat) (ks : list key) (w : world)
    : outcome unit * world * list event :=
  match ks with
  | [] => (Returned tt, w, [])
  | k :: ks' =>
      match resolve fuel k [] w with
      | (Returned _, w', t) =>
          let '(res, w'', t') := resolve_all fuel ks' w' in
          (res, w'', t ++ t')
      | (Thrown e, w', t) => (Thrown e, w', t)
      | (OutOfFuel, w', t) => (OutOfFuel, w', t)
      end
  end.

(** The rollback of preload: keep only the cache entries whose key was
    in the snapshot. *)
Definition rollback (snapshot : list key) (r : resolver) : resolver :=
  set_cache (filter (fun kv => shas snapshot kv.1 = true)) r.

(** Modelled from the spec: [preload(keys?)] (section 4.4; the
    Preloader is not among the sources).  An empty [keys] stands for a
    call without arguments. *)
Definition preload (fuel : nat) (keys : list key) (w : world)
    : outcome unit * world * list event :=
  let requested :=
    match keys with [] => mkeys (factories (self w)) | _ => keys end in
  let snapshot := mkeys (cache (self w)) in
  let w0 := with_self (setDeferOnInit true) w in
  match resolve_all fuel requested w0 with
  | (Returned _, w1, t1) =>
      let w2 := with_self (setDeferOnInit false) w1 in
      let g := depGraph (self w2) in
      let cl := closure g requested in
      match topo_levels g cl with
      | (levels, []) =>
          let '(r3, errs, t2) := init_levels (scope_id w) levels (self w2) in
          (settle errs, World r3 (ancestors w2) (next_addr w2), t1 ++ t2)
      | (_, residual) => (Thrown (StuckKeys residual), w2, t1)
      end
  | (Thrown e, w1, t1) =>
      (Thrown e,
       with_self (fun r => setDeferOnInit false (rollback snapshot r)) w1, t1)
  | (OutOfFuel, w1, t1) => (OutOfFuel, w1, t1)
  end.

(** One step of the teardown pass. *)
Definition destroy_step (sid : nat) (acc : list error * list event)
    (kv : key * value) : list error * list event :=
  match destroy_hook kv.2 with
  | None => acc
  | Some h =>
      (acc.1 ++ match hook_failure h with Some e => [e] | None => [] end,
       acc.2 ++ [EvDestroy sid kv.1])
  end.

(** Modelled from the spec: [dispose()] (section 4.5; the Disposer is
    not among the sources). *)
Definition dispose (w : world) : outcome unit * world * list event :=
  let '(errs, evs) :=
    foldl (destroy_step (scope_id w)) ([], []) (reverse (cache (self w))) in
  let r := clearWarnings (clearAllDepGraph (clearAllInitState
             (set_cache (fun _ => []) (self w)))) in
  (settle errs, World r (ancestors w) (next_addr w), evs).

(* ------------------------------------------------------------------ *)
(** ** Predicates used in the statements *)

(** The parts of a resolver that a resolution call restores or never
    writes: the registry, the active set, the deferred-init flag and the
    validator. *)
Definition rframe (r r' : resolver) : Prop :=
  factories r' = factories r /\ resolving r' = resolving r /\
  deferOnInit r' = deferOnInit r /\ validator r' = validator r.

Definition wframe (w w' : world) : Prop :=
  rframe (self w) (self w') /\ Forall2 rframe (ancestors w) (ancestors w').

(** The resolvers of a world, nearest first, with their registries and
    their active sets. *)
Definition levels (w : world) : list resolver := self w :: ancestors w.
Definition actives (w : world) : list (list key) :=
  map resolving (levels w).





Section Healthy.
(** A set of keys taken to be healthy, with a rank that goes down along
    their reads. *)
Variable healthy : key -> bool.
Variable rank : key -> nat.








End Healthy.


(** Marking a key active. *)
Definition enter (k : key) (w : world) : world :=
  with_self (set_resolving (fun s => sadd s k)) w.

(** The cache of a resolver holds no entry for a key registered with a
    transient factory. *)
Definition transient_uncached (r : resolver) : Prop :=
  forall k f, mget (factories r) k = Some f ->
    factory_is_transient f = true -> mget (cache r) k = None.

Definition cache_invariant (w : world) : Prop :=
  transient_uncached (self w) /\ Forall transient_uncached (ancestors w).

(** A factory body that, whenever it returns, returns an object it has
    just built. *)
Inductive builds : fprog -> Prop :=
| builds_construct o : builds (Construct o)
| builds_raise m : builds (Raise m)
| builds_read k cont : (forall v, builds (cont v)) -> builds (Read k cont)
| builds_try k cont handler :
    (forall v, builds (cont v)) -> (forall e, builds (handler e)) ->
    builds (TryRead k cont handler).

(* ------------------------------------------------------------------ *)
(** ** Registries of the test suites *)

(** An unmarked factory with the given body. *)
Definition plain (p : fprog) : factory := mkFactory (fun _ => p) None.

(** A service object with the given lifecycle hooks. *)
Definition service (init destroy : option hook) : fprog :=
  Construct (Object 0 init destroy).

Definition no_suggestion : key -> list key -> option key := fun _ _ => None.

Definition container (fs : list (key * factory)) : world :=
  World (new_resolver fs no_suggestion) [] 0.

(** [error-recovery.test.ts]: [a] and [b] read each other. *)
Definition cyclic_registry : list (key * factory) :=
  [("a", plain (Read "b" Return));
   ("b", plain (Read "a" Return));
   ("standalone", plain (Return (VPrim 42)))].

Definition succ_value (v : value) : value :=
  match v with VPrim z => VPrim (z + 1) | _ => VUndefined end.

(** The scenario of the specification:
    [{a: () => 1, b: (d) => d.a + 1, c: (d) => d.b + 1}]. *)
Definition chain_registry : list (key * factory) :=
  [("a", plain (Return (VPrim 1)));
   ("b", plain (Read "a" (fun v => Return (succ_value v))));
   ("c", plain (Read "b" (fun v => Return (succ_value v))))].

(** A transient factory that hands back a constant, and one that builds
    an object ([module.test.ts], [preload.test.ts]). *)
Definition transient_registry : list (key * factory) :=
  [("answer", transient (plain (Return (VPrim 42))));
   ("svc", transient (plain (service (Some HookReturns) None)))].

(** [reset.test.ts]: a service with an initialization hook, and a
    factory that returns a plain value. *)
Definition reset_registry : list (key * factory) :=
  [("service", plain (service (Some HookReturns) None));
   ("db", plain (Return (VPrim 7)))].

(** The lifecycle test "async onInit errors are collected as warnings":
    [onInit] is an async function that throws. *)
Definition failing_registry : list (key * factory) :=
  [("failing", plain (service (Some (HookRejects "init failed!")) None))].






(* ------------------------------------------------------------------ *)
(** ** [isTransient], operator by operator *)

Module TransientEval.

(** What an operator can raise: the [TypeError] of the language, or
    whatever user code throws. *)
Inductive exn :=
| TypeError
| Raised (msg : string).

(** How evaluating an expression ends: with a value, or abruptly. *)
Inductive completion (A : Type) :=
| Normal (a : A)
| Abrupt (e : exn).
Arguments Normal {A} _.
Arguments Abrupt {A} _.

(** What a property read produces: a primitive, or a reference to some
    object or function. *)
Inductive propval :=
| Prim (p : prim)
| Ref.

(** Values as the operators see them.  An object or a function answers
    [TRANSIENT_MARKER in v] and [v[TRANSIENT_MARKER]] through its
    internal methods; on a [Proxy] (the [has] and [get] traps) or with
    an accessor property (the getter) these run user code, which may
    answer anything or throw.  A [Proxy] over a function has type
    ["function"]. *)
Inductive xval :=
| XPrim (p : prim)
| XObject (has : completion bool) (get : completion propval)
| XFunction (has : completion bool) (get : completion propval).

(** Ordinary values: the marker is a data property or absent. *)
Definition of_jsval {C T} (v : jsval C T) : xval :=
  match v with
  | JPrim p => XPrim p
  | JObject m =>
      XObject (Normal (bool_decide (is_Some m)))
        (Normal (Prim (default PUndefined m)))
  | JFunction f =>
      XFunction (Normal (bool_decide (is_Some (marker f))))
        (Normal (Prim (default PUndefined (marker f))))
  end.

(** [typeof v]. *)
Definition typeof (v : xval) : string :=
  match v with
  | XPrim PUndefined => "undefined"
  | XPrim PNull => "object"
  | XPrim (PBool _) => "boolean"
  | XPrim (PNumber _) => "number"
  | XPrim (PString _) => "string"
  | XObject _ _ => "object"
  | XFunction _ _ => "function"
  end.

(** [TRANSIENT_MARKER in v]: a [TypeError] unless [v] is an object or a
    function, which answer for themselves. *)
Definition marker_in (v : xval) : completion bool :=
  match v with
  | XPrim _ => Abrupt TypeError
  | XObject has _ => has
  | XFunction has _ => has
  end.

(** [v[TRANSIENT_MARKER]]: a [TypeError] on [undefined] and [null],
    [undefined] on the other primitives (their wrappers have no such
    property), and the answer of an object or a function. *)
Definition marker_of (v : xval) : completion propval :=
  match v with
  | XPrim PUndefined | XPrim PNull => Abrupt TypeError
  | XPrim _ => Normal (Prim PUndefined)
  | XObject _ get => get
  | XFunction _ get => get
  end.

(** [a && b]: [b] is looked at only when [a] is true. *)
Definition and_then (a b : completion bool) : completion bool :=
  match a with
  | Normal true => b
  | Normal false => Normal false
  | Abrupt e => Abrupt e
  end.

(** [x === true]. *)
Definition strict_eq_true (x : completion propval) : completion bool :=
  match x with
  | Normal (Prim p) => Normal (is_true p)
  | Normal Ref => Normal false
  | Abrupt e => Abrupt e
  end.

(** The body of [isTransient], as written:
    [typeof factory === 'function' && TRANSIENT_MARKER in factory &&
     factory[TRANSIENT_MARKER] === true]. *)
Definition isTransient_eval (factory : xval) : completion bool :=
  and_then
    (and_then (Normal (String.eqb (typeof factory) "function"))
       (marker_in factory))
    (strict_eq_true (marker_of factory)).

End TransientEval.

(* ------------------------------------------------------------------ *)
(** ** Scope creation ([createScope], first of the unnamed sources) *)

Module CreateScope.

(** [ScopeOptions]: an optional name. *)
Record ScopeOptions := { name : option string }.

Section Scope.
(** Factories, cached values, Resolver objects and containers.  The
    Resolver constructor and [buildContainerProxy] are imported from
    modules that are not among the sources; they are parameters. *)
Context {Fn V R K : Type}.
Variable newResolver :
  list (key * Fn) -> list (key * V) -> R -> option string -> R.
Variable buildContainerProxy : R -> K.

(** The loop [for (const [key, factory] of Object.entries(extra))
    childFactories.set(key, factory)], started on an empty [Map]. *)
Definition childFactories (entries : list (key * Fn)) : list (key * Fn) :=
  foldl (fun m kf => mset m kf.1 kf.2) [] entries.

(** [createScope(parentResolver, extra, options?)]; [extra] is given by
    its entries, in the order [Object.entries] lists them. *)
Definition createScope (parentResolver : R) (extra : list (key * Fn))
    (options : option ScopeOptions) : K :=
  let childResolver :=
    newResolver (childFactories extra) [] parentResolver
      (match options with Some o => name o | None => None end) in
  buildContainerProxy childResolver.
End Scope.

End CreateScope.

(* ------------------------------------------------------------------ *)
(** ** The benchmark harness ([benchmarks/bench.ts], [benchmarks/compare.ts]) *)

Module Bench.

(** The loop counter is a JavaScript number, a double: below [2^53]
    adding one is exact, and [2^53 + 1] rounds back to [2^53], so from
    there on [i++] leaves [i] where it is. *)
Definition max_exact : Z := 2 ^ 53.

Definition incr (i : Z) : Z :=
  if (i <? max_exact)%Z then (i + 1)%Z else i.

Section Harness.
(** The state the benchmarked function works on, and the numbers the
    clock produces with their arithmetic ([-], [*], [/], [Math.round]
    and the embedding of integer literals), which are floating point and
    stay abstract. *)
Context {St num : Type}.
Variable now : St -> num * St.
Variable sub mul div : num -> num -> num.
Variable round : num -> num.
Variable of_Z : Z -> num.

(** [for (let i = ...; i < bound; i++) fn();] from the current [i].  The
    loop need not end; [None] says that the budget of the model ran out
    before it did. *)
Fixpoint for_lt (fuel : nat) (i bound : Z) (fn : St -> St) (s : St)
    : option St :=
  match fuel with
  | 0 => None
  | S n => if (i <? bound)%Z then for_lt n (incr i) bound fn (fn s) else Some s
  end.

(** [for (let i = 0; i < bound; i++) fn();]. *)
Definition for_upto (fuel : nat) (bound : Z) (fn : St -> St) (s : St)
    : option St :=
  for_lt fuel 0 bound fn s.

Record BenchResult := {
  ops : Z;
  totalMs : num;
  opsPerSec : num;
  nsPerOp : num
}.

Record CompareResult := {
  c_totalMs : num;
  c_nsPerOp : num;
  c_opsPerSec : num
}.

(** [bench(label, fn, ops)] of [bench.ts]; [ops] is an integer, as at
    every call. *)
Definition bench (fuel : nat) (label : string) (fn : St -> St) (n : Z)
    (s : St) : option (BenchResult * St) :=
  match for_upto fuel (Z.min n 1000) fn s with
  | None => None
  | Some s1 =>
      let '(start, s2) := now s1 in
      match for_upto fuel n fn s2 with
      | None => None
      | Some s3 =>
          let '(stop, s4) := now s3 in
          let total := sub stop start in
          Some
            ({| ops := n;
                totalMs := div (round (mul total (of_Z 100))) (of_Z 100);
                opsPerSec := round (div (of_Z n) (div total (of_Z 1000)));
                nsPerOp :=
                  div
                    (round
                       (mul (mul (div total (of_Z n)) (of_Z 1000000))
                          (of_Z 100)))
                    (of_Z 100) |}, s4)
      end
  end.

(** [bench(fn, ops)] of [compare.ts]. *)
Definition bench_compare (fuel : nat) (fn : St -> St) (n : Z) (s : St)
    : option (CompareResult * St) :=
  match for_upto fuel (Z.min n 1000) fn s with
  | None => None
  | Some s1 =>
      let '(start, s2) := now s1 in
      match for_upto fuel n fn s2 with
      | None => None
      | Some s3 =>
          let '(stop, s4) := now s3 in
          let total := sub stop start in
          Some
            ({| c_totalMs := div (round (mul total (of_Z 100))) (of_Z 100);
                c_nsPerOp :=
                  div
                    (round
                       (mul (mul (div total (of_Z n)) (of_Z 1000000))
                          (of_Z 100)))
                    (of_Z 100);
                c_opsPerSec := round (div (of_Z n) (div total (of_Z 1000))) |},
             s4)
      end
  end.
End Harness.

(** A clock for running the harness: the state counts the calls of the
    benchmarked function, and the clock reads that count. *)
Definition count_clock (s : nat) : Z * nat := (Z.of_nat s, s).

End Bench.
(* ------------------------------------------------------------------ *)
(** ** Facts about the transient marker *)


(** C10: [transient f] forwards every call to [f] and is recognised by
    [isTransient]; [isTransient] rejects every value that is not a
    function carrying the marker set to [true], in particular unmarked
    factories and non-function values. *)
Theorem transient_roundtrip {C T : Type} :
  (forall (f : Factory C T),
      (forall c, call (transient f) c = call f c) /\
      isTransient (JFunction (transient f)) = true) /\
  (forall v : jsval C T, ~ carries_marker v -> isTransient v = false) /\
  (forall f : Factory C T, marker f = None -> isTransient (JFunction f) = false) /\
  (forall p, isTransient (@JPrim C T p) = false) /\
  (forall m, isTransient (@JObject C T m) = false).
Proof.
  repeat split; try done.
  - intros v Hv. destruct v as [p|m|f]; try done.
    cbn. destruct (marker f) as [p|] eqn:Hm; [|done].
    destruct p as [| |[]| |]; try done.
    exfalso. apply Hv. by exists f.
  - intros f Hf. cbn. by rewrite Hf.
Qed.

(** A closed instance: an unmarked factory is not transient. *)
Lemma transient_roundtrip_witness :
  isTransient (JFunction (mkFactory (fun _ : unit => 0%Z) None)) = false.
Proof.
  refine (proj1 (proj2 (@transient_roundtrip unit Z)) _ _).
  intros (f & Hf & Hm). by inversion Hf; subst.
Defined.


(* ------------------------------------------------------------------ *)
(** ** Containers *)

Lemma shas_true (s : list key) (k : key) : shas s k = true <-> k ∈ s.
Proof. unfold shas. by rewrite bool_decide_eq_true. Qed.

Lemma shas_false (s : list key) (k : key) : shas s k = false <-> k ∉ s.
Proof. unfold shas. by rewrite bool_decide_eq_false. Qed.

Lemma shas_sadd (s : list key) (k k' : key) :
  shas (sadd s k) k' = shas s k' || bool_decide (k' = k).
Proof.
  unfold sadd. destruct (shas s k) eqn:Hk.
  - apply shas_true in Hk. unfold shas.
    destruct (decide (k' = k)) as [->|Hne].
    + by rewrite !bool_decide_eq_true_2.
    + rewrite (bool_decide_eq_false_2 (k' = k)) by done. by rewrite orb_false_r.
  - unfold shas.
    destruct (decide (k' ∈ s)) as [Hin|Hin], (decide (k' = k)) as [->|Hne];
      rewrite ?(bool_decide_eq_true_2 (k = k)), ?(bool_decide_eq_true_2 _ Hin),
        ?(bool_decide_eq_false_2 _ Hin), ?(bool_decide_eq_false_2 _ Hne);
      try done; [apply bool_decide_eq_true_2..|apply bool_decide_eq_false_2];
      rewrite elem_of_app, list_elem_of_singleton; naive_solver.
Qed.

Lemma sdel_notin (s : list key) (k : key) : k ∉ s -> sdel s k = s.
Proof.
  unfold sdel. induction s as [|x s IH]; intros Hk; [done|].
  apply not_elem_of_cons in Hk as [Hx Hs].
  rewrite filter_cons_True by done. by rewrite IH.
Qed.

Lemma sdel_sadd (s : list key) (k : key) :
  shas s k = false -> sdel (sadd s k) k = s.
Proof.
  intros Hk. unfold sadd. rewrite Hk. apply shas_false in Hk.
  unfold sdel. rewrite filter_app, filter_cons_False, filter_nil, app_nil_r
    by naive_solver.
  by apply sdel_notin.
Qed.

Lemma mget_mset {V} (m : list (key * V)) (k k' : key) (v : V) :
  mget (mset m k v) k' = if decide (k' = k) then Some v else mget m k'.
Proof.
  induction m as [|[k0 v0] m IH]; cbn.
  - repeat case_decide; naive_solver.
  - destruct (decide (k = k0)) as [->|Hne]; cbn.
    + repeat case_decide; naive_solver.
    + rewrite IH. repeat case_decide; naive_solver.
Qed.

Lemma mget_mdel {V} (m : list (key * V)) (k k' : key) :
  mget (mdel m k) k' = if decide (k' = k) then None else mget m k'.
Proof.
  unfold mdel. induction m as [|[k0 v0] m IH]; [cbn; by case_decide|].
  rewrite filter_cons. cbn [fst].
  destruct (decide (k0 <> k)) as [Hne|Heq]; cbn [mget]; rewrite IH.
  - destruct (decide (k' = k)), (decide (k' = k0)); naive_solver.
  - apply dec_stable in Heq. subst k0.
    destruct (decide (k' = k)); naive_solver.
Qed.

Lemma mget_Some_keys {V} (m : list (key * V)) (k : key) (v : V) :
  mget m k = Some v -> k ∈ mkeys m.
Proof.
  unfold mkeys. induction m as [|[k0 v0] m IH]; cbn; [done|].
  case_decide; set_solver.
Qed.

Lemma mget_None_keys {V} (m : list (key * V)) (k : key) :
  mget m k = None <-> k ∉ mkeys m.
Proof.
  unfold mkeys. induction m as [|[k0 v0] m IH]; cbn.
  - split; [intros _; apply not_elem_of_nil|done].
  - case_decide; subst; rewrite not_elem_of_cons; naive_solver.
Qed.

(* ------------------------------------------------------------------ *)
(** ** What every resolution leaves untouched *)

Arguments sadd : simpl never.
Arguments sdel : simpl never.
Arguments shas : simpl never.

Lemma rframe_refl r : rframe r r.
Proof. by repeat split. Qed.

Lemma rframe_trans r1 r2 r3 : rframe r1 r2 -> rframe r2 r3 -> rframe r1 r3.
Proof. unfold rframe. intros (?&?&?&?) (?&?&?&?). repeat split; congruence. Qed.

Lemma Forall2_rframe_refl rs : Forall2 rframe rs rs.
Proof. induction rs; constructor; auto using rframe_refl. Qed.

Lemma Forall2_rframe_trans rs1 rs2 rs3 :
  Forall2 rframe rs1 rs2 -> Forall2 rframe rs2 rs3 -> Forall2 rframe rs1 rs3.
Proof.
  intros H; revert rs3. induction H; inversion 1; subst; constructor;
    eauto using rframe_trans.
Qed.

Lemma wframe_refl w : wframe w w.
Proof. split; auto using rframe_refl, Forall2_rframe_refl. Qed.

Lemma wframe_trans w1 w2 w3 : wframe w1 w2 -> wframe w2 w3 -> wframe w1 w3.
Proof.
  intros [] []; split; eauto using rframe_trans, Forall2_rframe_trans.
Qed.

Lemma wframe_scope_id w w' : wframe w w' -> scope_id w' = scope_id w.
Proof. intros [_ H]. unfold scope_id. symmetry. by eapply Forall2_length. Qed.

Lemma fire_init_frame k v w : wframe w (fire_init k v w).1.2.
Proof.
  unfold fire_init.
  destruct (deferOnInit (self w)); [apply wframe_refl|].
  destruct (shas (initCalled (self w)) k); [apply wframe_refl|].
  destruct (init_hook v) as [[]|]; cbn;
    try apply wframe_refl; (split; [by repeat split|apply Forall2_rframe_refl]).
Qed.

Lemma complete_frame k f v deps chain w :
  wframe w (complete k f v deps chain w).1.2.
Proof.
  unfold complete. destruct v; [apply wframe_refl| |];
    (eapply wframe_trans; [|apply fire_init_frame]);
    destruct (factory_is_transient f);
    (split; [by repeat split|apply Forall2_rframe_refl]).
Qed.

Lemma run_factory_frame resolveFn :
  (forall k chain w, wframe w (resolveFn k chain w).1.2) ->
  forall p chain deps w tr,
    wframe w (run_factory resolveFn p chain deps w tr).1.2.
Proof.
  intros Hrec.
  induction p as [v|o|m|k cont IH|k cont IH handler IHh];
    intros chain deps w tr; cbn.
  - apply wframe_refl.
  - split; [apply rframe_refl|apply Forall2_rframe_refl].
  - apply wframe_refl.
  - specialize (Hrec k chain w).
    destruct (resolveFn k chain w) as [[[v|e|] w'] t]; cbn in *; [|done..].
    eapply wframe_trans; [exact Hrec|apply IH].
  - specialize (Hrec k chain w).
    destruct (resolveFn k chain w) as [[[v|e|] w'] t]; cbn in *; [| |done].
    + eapply wframe_trans; [exact Hrec|apply IH].
    + eapply wframe_trans; [exact Hrec|apply IHh].
Qed.

(** Scoped cleanup: whatever the exit path, a resolution leaves the
    active set (and the registry, the flag, the validator) of every
    resolver in the chain as it found them. *)
Lemma resolve_frame fuel : forall k chain w, wframe w (resolve fuel k chain w).1.2.
Proof.
  induction fuel as [|n IH]; intros k chain w; [apply wframe_refl|].
  cbn [resolve]. unfold resolve_step.
  destruct (mget (factories (self w)) k) as [f|].
  - destruct (if factory_is_transient f then None else mget (cache (self w)) k);
      [apply wframe_refl|].
    destruct (shas (resolving (self w)) k) eqn:Hact; [apply wframe_refl|].
    pose proof (run_factory_frame (resolve n) IH
      (call f (TrackingProxy (chain ++ [k]))) (chain ++ [k]) []
      (with_self (set_resolving (fun s => sadd s k)) w)
      [EvFactory (scope_id w) k]) as Hrun.
    destruct (run_factory _ _ _ _ _ _) as [[[res deps] w1] t1]. cbn in Hrun.
    assert (exists res2 w2 t2,
      match res with
      | Returned v => complete k f v deps (chain ++ [k]) w1
      | _ => (res, w1, [])
      end = (res2, w2, t2) /\ wframe w1 w2) as (res2 & w2 & t2 & -> & H12).
    { destruct res as [v| |].
      - pose proof (complete_frame k f v deps (chain ++ [k]) w1) as Hc.
        destruct (complete _ _ _ _ _ _) as [[? ?] ?]. by eauto.
      - eauto using wframe_refl.
      - eauto using wframe_refl. }
    cbn. destruct Hrun as [(Hf & Hr & Hd & Hv) Ha].
    destruct H12 as [(Hf' & Hr' & Hd' & Hv') Ha']. cbn in *.
    split; [|by eapply Forall2_rframe_trans].
    repeat split; cbn; try congruence.
    rewrite Hr', Hr. by apply sdel_sadd.
  - destruct (ancestors w) as [|p ps] eqn:Hanc; [apply wframe_refl|].
    specialize (IH k chain (World p ps (next_addr w))).
    destruct (resolve n k chain _) as [[res w'] t]. cbn in *.
    destruct IH as [Hs Ha]. cbn in *. split; [apply rframe_refl|].
    rewrite Hanc. by constructor.
Qed.

Lemma world_eta w : World (self w) (ancestors w) (next_addr w) = w.
Proof. by destruct w. Qed.

(* ------------------------------------------------------------------ *)
(** ** Cycle safety *)

Lemma resolve_S n k chain w :
  resolve (S n) k chain w = resolve_step (resolve n) k chain w.
Proof. done. Qed.

Lemma leave_enter w k :
  shas (resolving (self w)) k = false ->
  with_self (set_resolving (fun s => sdel s k)) (enter k w) = w.
Proof.
  intros Hk. destruct w as [[] anc n].
  unfold enter, with_self, set_resolving. cbn in *.
  by rewrite sdel_sadd.
Qed.

(** *** The scope chain *)







Lemma length_actives w : length (actives w) = length (levels w).
Proof. unfold actives. by rewrite length_map. Qed.




(** *** Caches outside the healthy keys *)

Section Quiet.
Variable healthy : key -> bool.
Variable rank : key -> nat.











End Quiet.

(** *** Healthy keys resolve *)

Section HealthyKeys.
Variable healthy : key -> bool.
Variable rank : key -> nat.


End HealthyKeys.

(** *** Running into the cycle *)



Section CyclePath.
Variable healthy : key -> bool.
Variable rank : key -> nat.
Variable R : nat.
Hypothesis rank_bound : forall x, healthy x = true -> rank x <= R.














End CyclePath.

(** *** The claim *)






(** The scenario of [error-recovery.test.ts]: [a] and [b] read each
    other; resolving [a] throws, twice, and [standalone] still
    resolves. *)
Example error_recovery_test :
  let w := (resolve 3 "a" [] (container cyclic_registry)).1.2 in
  (resolve 3 "a" [] (container cyclic_registry)).1.1 =
    Thrown (CircularDependency "a" ["a"; "b"; "a"]) /\
  (resolve 3 "a" [] w).1.1 = Thrown (CircularDependency "a" ["a"; "b"; "a"]) /\
  (resolve 3 "standalone" [] w).1.1 = Returned (VPrim 42).
Proof. vm_compute. by repeat split. Qed.

(* ------------------------------------------------------------------ *)
(** ** Singletons *)


Lemma fire_init_cache k v w :
  cache (self (fire_init k v w).1.2) = cache (self w).
Proof.
  unfold fire_init. destruct (deferOnInit (self w)); [done|].
  destruct (shas (initCalled (self w)) k); [done|].
  by destruct (init_hook v) as [[]|].
Qed.

Lemma fire_init_returned k v w v' w' t :
  fire_init k v w = (Returned v', w', t) -> v' = v.
Proof.
  unfold fire_init. destruct (deferOnInit (self w)); [congruence|].
  destruct (shas (initCalled (self w)) k); [congruence|].
  destruct (init_hook v) as [[]|]; congruence.
Qed.

(** After step 4 the cache holds the instance of a singleton, whether or
    not the initialization hook then throws. *)
Lemma complete_cache_singleton k f v deps chain w :
  factory_is_transient f = false -> v <> VUndefined ->
  mget (cache (self (complete k f v deps chain w).1.2)) k = Some v.
Proof.
  intros Hf Hv. unfold complete. rewrite Hf.
  destruct v; [done| |]; rewrite fire_init_cache; cbn;
    rewrite mget_mset; by rewrite decide_True.
Qed.

Lemma complete_returned k f v deps chain w v' w' t :
  complete k f v deps chain w = (Returned v', w', t) -> v' = v /\ v <> VUndefined.
Proof.
  unfold complete. destruct v; [done| |]; intros H%fire_init_returned; by subst.
Qed.

(** A successful resolution of a locally registered singleton leaves
    its instance in the cache. *)
Lemma resolve_caches_singleton fuel k chain w f v w' t :
  mget (factories (self w)) k = Some f -> factory_is_transient f = false ->
  resolve fuel k chain w = (Returned v, w', t) ->
  mget (cache (self w')) k = Some v.
Proof.
  intros Hf Hs. destruct fuel as [|n]; [done|].
  rewrite resolve_S. unfold resolve_step. rewrite Hf, Hs.
  destruct (mget (cache (self w)) k) as [v0|] eqn:Hc; [by intros [= <- <- <-]|].
  destruct (shas (resolving (self w)) k); [done|].
  destruct (run_factory _ _ _ _ _ _) as [[[res deps] w1] t1].
  destruct res as [v1|e|]; [|by intros [= <-]..].
  pose proof (complete_cache_singleton k f v1 deps (chain ++ [k]) w1 Hs) as Hcache.
  destruct (complete k f v1 deps (chain ++ [k]) w1) as [[res2 w2] t2] eqn:Hcomp.
  destruct res2 as [v2|e|]; [|done..]. intros [= <- <- <-].
  apply complete_returned in Hcomp as [-> Hv]. cbn in *. auto.
Qed.

(** C8: once a key that resolves through a singleton factory (registered
    locally or in an ancestor) has been resolved, resolving it again
    returns the identical instance, changes nothing and invokes no
    factory. *)
Theorem singleton_idempotent (fuel : nat) : forall (k : key) (chain : list key)
    (w : world) (f : factory) (v : value) (w' : world) (t : list event),
  find_factory (self w :: ancestors w) k = Some f ->
  factory_is_transient f = false ->
  resolve fuel k chain w = (Returned v, w', t) ->
  forall chain', resolve fuel k chain' w' = (Returned v, w', []).
Proof.
  induction fuel as [|n IH]; intros k chain w f v w' t Hfind Hs Hres chain';
    [done|].
  pose proof (resolve_frame (S n) k chain w) as Hframe. rewrite Hres in Hframe.
  destruct Hframe as [(Hfac & _) _]. cbn in Hfac.
  cbn [find_factory] in Hfind.
  destruct (mget (factories (self w)) k) as [f0|] eqn:Hf.
  - injection Hfind as ->.
    pose proof (resolve_caches_singleton _ _ _ _ _ _ _ _ Hf Hs Hres) as Hc.
    rewrite resolve_S. unfold resolve_step. by rewrite Hfac, Hf, Hs, Hc.
  - rewrite resolve_S in Hres. unfold resolve_step in Hres. rewrite Hf in Hres.
    destruct (ancestors w) as [|p ps] eqn:Hanc; [done|].
    destruct (resolve n k chain (World p ps (next_addr w))) as [[res wp] tp]
      eqn:Hp.
    injection Hres as -> <- <-.
    rewrite resolve_S. unfold resolve_step. cbn [self ancestors next_addr].
    rewrite Hf. rewrite world_eta.
    by rewrite (IH k chain (World p ps (next_addr w)) f v wp tp Hfind Hs Hp chain').
Qed.

Lemma singleton_idempotent_witness :
  let x := resolve 4 "c" [] (container chain_registry) in
  resolve 4 "c" ["b"] x.1.2 = (Returned (VPrim 3), x.1.2, []).
Proof.
  intros x.
  apply (singleton_idempotent 4 "c" [] (container chain_registry)
           (plain (Read "b" (fun v => Return (succ_value v)))) (VPrim 3) x.1.2 x.2).
  - vm_compute. reflexivity.
  - vm_compute. reflexivity.
  - vm_compute. reflexivity.
Defined.

(* ------------------------------------------------------------------ *)
(** ** Invariants of resolution *)

(** Reduce projections of worlds and results, leaving the field updates
    of the resolver as they are. *)
Ltac simpl_world :=
  unfold with_self;
  cbn -[set_cache set_resolving set_depGraph set_initCalled set_warnings
        setDeferOnInit set_pendingInit sadd sdel shas mset mget].

Section Preserve.
Variable Q : resolver -> Prop.
Hypothesis Q_resolving : forall r g, Q r -> Q (set_resolving g r).
Hypothesis Q_depGraph : forall r g, Q r -> Q (set_depGraph g r).
Hypothesis Q_initCalled : forall r g, Q r -> Q (set_initCalled g r).
Hypothesis Q_pendingInit : forall r g, Q r -> Q (set_pendingInit g r).
Hypothesis Q_warnings : forall r g, Q r -> Q (set_warnings g r).
Hypothesis Q_cache : forall r k f v,
  Q r -> mget (factories r) k = Some f -> factory_is_transient f = false ->
  Q (set_cache (fun c => mset c k v) r).

Let winv (w : world) : Prop := Q (self w) /\ Forall Q (ancestors w).

Lemma fire_init_preserves k v w : winv w -> winv (fire_init k v w).1.2.
Proof using Q_initCalled Q_pendingInit.
  intros [Hs Ha]. unfold fire_init.
  destruct (deferOnInit (self w)); [done|].
  destruct (shas (initCalled (self w)) k); [done|].
  destruct (init_hook v) as [[]|]; split; simpl_world; auto.
Qed.

Lemma complete_preserves k f v deps chain w :
  mget (factories (self w)) k = Some f ->
  winv w -> winv (complete k f v deps chain w).1.2.
Proof using Q_initCalled Q_pendingInit Q_depGraph Q_warnings Q_cache.
  intros Hf [Hs Ha]. unfold complete.
  destruct v; [done| |]; apply fire_init_preserves;
    destruct (factory_is_transient f) eqn:Ht; split; cbn; auto;
    eapply Q_cache; eauto.
Qed.

Lemma run_factory_preserves resolveFn :
  (forall k chain w, winv w -> winv (resolveFn k chain w).1.2) ->
  forall p chain deps w tr,
    winv w -> winv (run_factory resolveFn p chain deps w tr).1.2.
Proof using Type.
  intros Hrec.
  induction p as [v|o|m|k cont IH|k cont IH handler IHh];
    intros chain deps w tr Hw; cbn; [done..| |];
    specialize (Hrec k chain w Hw);
    destruct (resolveFn k chain w) as [[[v|e|] w'] t]; cbn in *; auto.
Qed.

Lemma resolve_preserves fuel :
  forall k chain w, winv w -> winv (resolve fuel k chain w).1.2.
Proof using All.
  induction fuel as [|n IH]; intros k chain w Hw; [done|].
  rewrite resolve_S. unfold resolve_step.
  destruct (mget (factories (self w)) k) as [f|] eqn:Hf.
  - destruct (if factory_is_transient f then None else mget (cache (self w)) k);
      [done|].
    destruct (shas (resolving (self w)) k); [done|].
    set (w0 := with_self (set_resolving (fun s => sadd s k)) w).
    assert (Hw0 : winv w0) by (destruct Hw; split; cbn; auto).
    pose proof (run_factory_preserves (resolve n) IH
      (call f (TrackingProxy (chain ++ [k]))) (chain ++ [k]) [] w0
      [EvFactory (scope_id w) k] Hw0) as Hrun.
    pose proof (run_factory_frame (resolve n) (resolve_frame n)
      (call f (TrackingProxy (chain ++ [k]))) (chain ++ [k]) [] w0
      [EvFactory (scope_id w) k]) as [(Hfac & _) _].
    destruct (run_factory _ _ _ _ _ _) as [[[res deps] w1] t1]. cbn in Hrun, Hfac.
    assert (winv (match res with
                  | Returned v => complete k f v deps (chain ++ [k]) w1
                  | _ => (res, w1, [])
                  end).1.2) as H2.
    { destruct res; [|done..]. apply complete_preserves; [|done]. congruence. }
    destruct (match res with Returned _ => _ | _ => _ end) as [[res2 w2] t2].
    destruct H2. split; cbn; auto.
  - destruct (ancestors w) as [|p ps] eqn:Hanc; [done|].
    destruct Hw as [Hs Ha]. rewrite Hanc in Ha. apply Forall_cons in Ha as [Hp Hps].
    specialize (IH k chain (World p ps (next_addr w)) (conj Hp Hps)).
    destruct (resolve n k chain _) as [[res w'] t]. destruct IH.
    split; cbn; auto.
Qed.
End Preserve.

Lemma transient_uncached_mset r k f v :
  transient_uncached r -> mget (factories r) k = Some f ->
  factory_is_transient f = false ->
  transient_uncached (set_cache (fun c => mset c k v) r).
Proof.
  intros Hr Hf Hs k' f' Hf' Ht'. unfold set_cache in *.
  cbn [cache factories] in *. rewrite mget_mset.
  destruct (decide (k' = k)) as [->|]; [congruence|]. by eapply Hr.
Qed.

(** Resolution never puts a transient result in a cache. *)
Lemma resolve_cache_invariant fuel k chain w :
  cache_invariant w -> cache_invariant (resolve fuel k chain w).1.2.
Proof.
  apply (resolve_preserves transient_uncached); try done.
  apply transient_uncached_mset.
Qed.

Lemma fire_init_next_addr k v w : next_addr (fire_init k v w).1.2 = next_addr w.
Proof.
  unfold fire_init. destruct (deferOnInit (self w)); [done|].
  destruct (shas (initCalled (self w)) k); [done|].
  by destruct (init_hook v) as [[]|].
Qed.

Lemma complete_next_addr k f v deps chain w :
  next_addr (complete k f v deps chain w).1.2 = next_addr w.
Proof.
  unfold complete. destruct v; [done| |]; rewrite fire_init_next_addr;
    by destruct (factory_is_transient f).
Qed.

Lemma run_factory_next_addr resolveFn :
  (forall k chain w, next_addr w <= next_addr (resolveFn k chain w).1.2) ->
  forall p chain deps w tr,
    next_addr w <= next_addr (run_factory resolveFn p chain deps w tr).1.2.
Proof.
  intros Hrec.
  induction p as [v|o|m|k cont IH|k cont IH handler IHh];
    intros chain deps w tr; cbn; [lia..| |];
    specialize (Hrec k chain w);
    destruct (resolveFn k chain w) as [[[v|e|] w'] t]; cbn in *; try done.
  - etrans; [exact Hrec|apply IH].
  - etrans; [exact Hrec|apply IH].
  - etrans; [exact Hrec|apply IHh].
Qed.

(** Object addresses are only ever handed out upwards. *)
Lemma resolve_next_addr fuel :
  forall k chain w, next_addr w <= next_addr (resolve fuel k chain w).1.2.
Proof.
  induction fuel as [|n IH]; intros k chain w; [done|].
  rewrite resolve_S. unfold resolve_step.
  destruct (mget (factories (self w)) k) as [f|].
  - destruct (if factory_is_transient f then None else mget (cache (self w)) k);
      [done|].
    destruct (shas (resolving (self w)) k); [done|].
    pose proof (run_factory_next_addr (resolve n) IH
      (call f (TrackingProxy (chain ++ [k]))) (chain ++ [k]) []
      (with_self (set_resolving (fun s => sadd s k)) w)
      [EvFactory (scope_id w) k]) as Hrun.
    destruct (run_factory _ _ _ _ _ _) as [[[res deps] w1] t1]. cbn in Hrun.
    destruct res as [v| |]; [|done..].
    pose proof (complete_next_addr k f v deps (chain ++ [k]) w1) as Hc.
    destruct (complete _ _ _ _ _ _) as [[res2 w2] t2]. cbn in *. lia.
  - destruct (ancestors w) as [|p ps]; [done|].
    specialize (IH k chain (World p ps (next_addr w))).
    by destruct (resolve n k chain _) as [[res w'] t].
Qed.

(** A body that builds its result returns an object allocated during
    the run. *)
Lemma run_factory_builds resolveFn :
  (forall k chain w, next_addr w <= next_addr (resolveFn k chain w).1.2) ->
  forall p chain deps w tr v deps' w' tr',
    builds p ->
    run_factory resolveFn p chain deps w tr = (Returned v, deps', w', tr') ->
    exists a o, v = VObject a o /\ next_addr w <= a < next_addr w'.
Proof.
  intros Hrec p chain deps w tr v deps' w' tr' Hb.
  revert chain deps w tr.
  induction Hb as [o|m|k cont _ IH|k cont handler _ IH _ IHh];
    intros chain deps w tr; cbn.
  - intros [= <- <- <- <-]. eexists _, _. split; [done|]. cbn. lia.
  - done.
  - specialize (Hrec k chain w).
    destruct (resolveFn k chain w) as [[[v0|e|] w0] t0]; [|done..].
    intros (a & o & -> & Ha)%IH. cbn in Hrec. exists a, o. split; [done|lia].
  - specialize (Hrec k chain w).
    destruct (resolveFn k chain w) as [[[v0|e|] w0] t0]; [| |done].
    + intros (a & o & -> & Ha)%IH. cbn in Hrec. exists a, o. split; [done|lia].
    + intros (a & o & -> & Ha)%IHh. cbn in Hrec. exists a, o. split; [done|lia].
Qed.

(** The trace of a factory run extends the trace it started with. *)
Lemma run_factory_trace resolveFn p : forall chain deps w tr,
  exists t, (run_factory resolveFn p chain deps w tr).2 = tr ++ t.
Proof.
  induction p as [v|o|m|k cont IH|k cont IH handler IHh];
    intros chain deps w tr; cbn; try (by exists []; rewrite app_nil_r);
    destruct (resolveFn k chain w) as [[[v|e|] w'] t]; cbn; eauto.
  - destruct (IH v chain (deps ++ [k]) w' (tr ++ t)) as [t' ->].
    exists (t ++ t'). by rewrite app_assoc.
  - destruct (IH v chain (deps ++ [k]) w' (tr ++ t)) as [t' ->].
    exists (t ++ t'). by rewrite app_assoc.
  - destruct (IHh e chain (deps ++ [k]) w' (tr ++ t)) as [t' ->].
    exists (t ++ t'). by rewrite app_assoc.
Qed.

(* ------------------------------------------------------------------ *)
(** ** Transient keys *)

Lemma resolve_transient fuel k chain w f v w' t :
  mget (factories (self w)) k = Some f -> factory_is_transient f = true ->
  resolve fuel k chain w = (Returned v, w', t) ->
  head t = Some (EvFactory (scope_id w) k) /\
  ((forall px, builds (call f px)) ->
   exists a o, v = VObject a o /\ next_addr w <= a < next_addr w').
Proof.
  intros Hf Ht. destruct fuel as [|n]; [done|].
  rewrite resolve_S. unfold resolve_step. rewrite Hf, Ht.
  destruct (shas (resolving (self w)) k); [done|].
  set (w0 := with_self (set_resolving (fun s => sadd s k)) w).
  set (px := TrackingProxy (chain ++ [k])).
  destruct (run_factory_trace (resolve n) (call f px) (chain ++ [k]) [] w0
              [EvFactory (scope_id w) k]) as [t' Htr].
  destruct (run_factory _ _ _ _ _ _) as [[[res deps] w1] t1] eqn:Hrun.
  cbn in Htr. subst t1.
  destruct res as [v1|e|]; [|by intros [= <-]..].
  pose proof (complete_next_addr k f v1 deps (chain ++ [k]) w1) as Hna.
  destruct (complete k f v1 deps (chain ++ [k]) w1) as [[res2 w2] t2] eqn:Hcomp.
  destruct res2 as [v2|e|]; [|done..]. intros [= <- <- <-].
  apply complete_returned in Hcomp as [-> _]. split; [done|].
  intros Hb.
  destruct (run_factory_builds (resolve n) (resolve_next_addr n) _ _ _ _ _ _ _ _ _
              (Hb px) Hrun) as (a & o & -> & Ha).
  exists a, o. split; [done|]. cbn in *. lia.
Qed.

Lemma transient_uncached_ext r r' :
  factories r' = factories r ->
  (forall k, mget (cache r) k = None -> mget (cache r') k = None) ->
  transient_uncached r -> transient_uncached r'.
Proof. intros Hf Hc Hr k f Hk Ht. rewrite Hf in Hk. eauto. Qed.

Lemma mget_filter_None {V} (P : key * V -> Prop) `{!forall x, Decision (P x)}
    (m : list (key * V)) (k : key) :
  mget m k = None -> mget (filter P m) k = None.
Proof.
  rewrite !mget_None_keys. unfold mkeys. intros Hk Hin. apply Hk.
  apply list_elem_of_fmap in Hin as (kv & -> & Hkv%list_elem_of_filter).
  apply list_elem_of_fmap. exists kv. naive_solver.
Qed.

Lemma mget_foldl_mdel_None {V} (ks : list key) : forall (m : list (key * V)) k,
  mget m k = None -> mget (foldl mdel m ks) k = None.
Proof.
  induction ks as [|x ks IH]; intros m k Hk; [done|]. cbn. apply IH.
  rewrite mget_mdel. by case_decide.
Qed.

Lemma callOnInit_start_fields k acc :
  factories (callOnInit_start k acc).1 = factories acc.1 /\
  cache (callOnInit_start k acc).1 = cache acc.1 /\
  deferOnInit (callOnInit_start k acc).1 = deferOnInit acc.1 /\
  depGraph (callOnInit_start k acc).1 = depGraph acc.1 /\
  warnings (callOnInit_start k acc).1 = warnings acc.1.
Proof.
  destruct acc as [r started]. unfold callOnInit_start.
  destruct (shas (initCalled r) k); [done|].
  destruct (mget (cache r) k) as [v|]; [|done].
  by destruct (init_hook v).
Qed.

Lemma foldl_callOnInit_start_fields level : forall acc,
  let acc' := foldl (fun a k => callOnInit_start k a) acc level in
  factories acc'.1 = factories acc.1 /\ cache acc'.1 = cache acc.1 /\
  deferOnInit acc'.1 = deferOnInit acc.1 /\
  depGraph acc'.1 = depGraph acc.1 /\ warnings acc'.1 = warnings acc.1.
Proof.
  induction level as [|k level IH]; intros acc; [done|]. cbn.
  destruct (IH (callOnInit_start k acc)) as (-> & -> & -> & -> & ->).
  apply callOnInit_start_fields.
Qed.

Lemma init_level_fields sid level r :
  let r' := (init_level sid level r).1.1 in
  factories r' = factories r /\ cache r' = cache r /\
  deferOnInit r' = deferOnInit r /\
  depGraph r' = depGraph r /\ warnings r' = warnings r.
Proof.
  unfold init_level.
  pose proof (foldl_callOnInit_start_fields level (r, [])) as H.
  by destruct (foldl _ _ level) as [r1 started].
Qed.

(** Initialization touches neither the registry nor the cache. *)
Lemma init_levels_fields sid levels : forall r,
  let r' := (init_levels sid levels r).1.1 in
  factories r' = factories r /\ cache r' = cache r /\
  deferOnInit r' = deferOnInit r /\
  depGraph r' = depGraph r /\ warnings r' = warnings r.
Proof.
  induction levels as [|level levels IH]; intros r; [done|]. cbn.
  pose proof (init_level_fields sid level r) as H1.
  destruct (init_level sid level r) as [[r1 errs1] t1].
  specialize (IH r1). destruct (init_levels sid levels r1) as [[r2 errs2] t2].
  cbn in *. destruct H1 as (<- & <- & <- & <- & <-). exact IH.
Qed.

Lemma resolve_all_cache_invariant fuel ks : forall w,
  cache_invariant w -> cache_invariant (resolve_all fuel ks w).1.2.
Proof.
  induction ks as [|k ks IH]; intros w Hw; [done|]. cbn.
  pose proof (resolve_cache_invariant fuel k [] w Hw) as H1.
  destruct (resolve fuel k [] w) as [[[v|e|] w1] t1]; [|done..].
  specialize (IH w1 H1). by destruct (resolve_all fuel ks w1) as [[res w2] t2].
Qed.

Lemma preload_cache_invariant fuel ks w :
  cache_invariant w -> cache_invariant (preload fuel ks w).1.2.
Proof.
  intros Hw. unfold preload.
  set (requested := match ks with [] => _ | _ => _ end).
  assert (H0 : cache_invariant (with_self (setDeferOnInit true) w))
    by (destruct Hw; by split).
  pose proof (resolve_all_cache_invariant fuel requested _ H0) as H1.
  destruct (resolve_all fuel requested _) as [[[[]|e|] w1] t1]; [| |done].
  - destruct (topo_levels _ _) as [levels [|x residual]]; [|by destruct H1].
    pose proof (init_levels_fields (scope_id w) levels
                  (self (with_self (setDeferOnInit false) w1))) as Hf.
    destruct (init_levels _ _ _) as [[r3 errs] t2]. cbn in *.
    destruct H1 as [Hs Ha]. split; [|done]. cbn.
    destruct Hf as (Hfac & Hc & _).
    eapply transient_uncached_ext; [exact Hfac| |exact Hs].
    intros k. by rewrite Hc.
  - destruct H1 as [Hs Ha]. split; [|done]. cbn.
    eapply transient_uncached_ext; [| |exact Hs]; [done|].
    intros k. cbn. apply mget_filter_None.
Qed.

Lemma dispose_cache_invariant w :
  cache_invariant w -> cache_invariant (dispose w).1.2.
Proof.
  intros [Hs Ha]. unfold dispose.
  destruct (foldl _ _ _) as [errs evs]. split; [|done]. by intros k f _ _.
Qed.

Lemma reset_cache_invariant ks w :
  cache_invariant w -> cache_invariant (with_self (reset ks) w).
Proof.
  intros [Hs Ha]. split; [|done]. cbn. destruct ks as [|k ks]; [by intros ? ? _ _|].
  eapply transient_uncached_ext; [| |exact Hs]; [done|].
  intros k'. cbn. intros Hk. apply (mget_foldl_mdel_None ks).
  rewrite mget_mdel. by case_decide.
Qed.

(** C7 (as amended): a key registered with a transient factory is never
    in the cache and each successful resolution of it starts by invoking
    the factory; when the factory builds its result, the instance differs
    from the one returned before.  No operation (resolve, preload,
    dispose, reset, running queued handlers) puts a transient result in
    a cache, and a new resolver has none. *)
Theorem transient_isolation (w : world) (k : key) (f : factory) :
  mget (factories (self w)) k = Some f ->
  factory_is_transient f = true ->
  cache_invariant w ->
  (forall fuel chain v w' t,
     resolve fuel k chain w = (Returned v, w', t) ->
     head t = Some (EvFactory (scope_id w) k) /\
     isResolved (self w') k = false /\
     forall fuel' chain' v' w'' t',
       resolve fuel' k chain' w' = (Returned v', w'', t') ->
       head t' = Some (EvFactory (scope_id w) k) /\
       isResolved (self w'') k = false /\
       ((forall px, builds (call f px)) -> v' <> v)) /\
  (forall fuel k' chain, cache_invariant (resolve fuel k' chain w).1.2) /\
  (forall fuel ks, cache_invariant (preload fuel ks w).1.2) /\
  cache_invariant (dispose w).1.2 /\
  (forall ks, cache_invariant (with_self (reset ks) w)) /\
  cache_invariant (with_self run_microtasks w) /\
  (forall fs vd, transient_uncached (new_resolver fs vd)).
Proof.
  intros Hf Ht Hw.
  assert (Hstep : forall fuel chain w0 v w' t,
    mget (factories (self w0)) k = Some f -> cache_invariant w0 ->
    resolve fuel k chain w0 = (Returned v, w', t) ->
    head t = Some (EvFactory (scope_id w0) k) /\
    isResolved (self w') k = false /\
    mget (factories (self w')) k = Some f /\ cache_invariant w' /\
    scope_id w' = scope_id w0 /\
    ((forall px, builds (call f px)) ->
     exists a o, v = VObject a o /\ next_addr w0 <= a < next_addr w')).
  { intros fuel chain w0 v w' t Hf0 Hw0 Hres.
    destruct (resolve_transient _ _ _ _ _ _ _ _ Hf0 Ht Hres) as [Hh Hb].
    pose proof (resolve_cache_invariant fuel k chain w0 Hw0) as Hinv.
    pose proof (resolve_frame fuel k chain w0) as Hfr.
    rewrite Hres in Hinv, Hfr. cbn [fst snd] in Hinv, Hfr.
    pose proof (wframe_scope_id _ _ Hfr) as Hsid.
    destruct Hfr as [(Hfac & _) _].
    assert (Hf' : mget (factories (self w')) k = Some f) by congruence.
    split; [done|]. split.
    { unfold isResolved, mhas. destruct Hinv as [Hs _].
      by rewrite (Hs k f Hf' Ht). }
    split; [done|]. split; [done|]. split; [done|]. exact Hb. }
  split.
  { intros fuel chain v w' t Hres.
    destruct (Hstep _ _ _ _ _ _ Hf Hw Hres)
      as (Hh & Hc & Hf' & Hw' & Hsid & Hfresh).
    split; [done|]. split; [done|].
    intros fuel' chain' v' w'' t' Hres'.
    destruct (Hstep _ _ _ _ _ _ Hf' Hw' Hres')
      as (Hh' & Hc' & _ & _ & _ & Hfresh').
    split; [by rewrite <- Hsid|]. split; [done|].
    intros Hb ->.
    destruct (Hfresh Hb) as (a & o & Hv & Ha).
    destruct (Hfresh' Hb) as (a' & o' & Hv' & Ha').
    rewrite Hv in Hv'. injection Hv' as -> ->. lia. }
  split; [intros; by apply resolve_cache_invariant|].
  split; [intros; by apply preload_cache_invariant|].
  split; [by apply dispose_cache_invariant|].
  split; [intros; by apply reset_cache_invariant|].
  split; [by destruct Hw|].
  by intros fs vd k0 f0 _ _.
Qed.

Lemma transient_isolation_witness :
  let x := resolve 1 "svc" [] (container transient_registry) in
  let y := resolve 1 "svc" [] x.1.2 in
  exists v v', x.1.1 = Returned v /\ y.1.1 = Returned v' /\
    isResolved (self y.1.2) "svc" = false /\ v' <> v.
Proof.
  intros x y.
  pose proof (transient_isolation (container transient_registry) "svc"
    (transient (plain (service (Some HookReturns) None)))
    eq_refl eq_refl) as H.
  destruct H as [H _].
  - split; [|constructor]. intros k f Hk Ht. reflexivity.
  - destruct (H 1 [] (VObject 0 (Object 0 (Some HookReturns) None)) x.1.2 x.2
                eq_refl) as (_ & _ & H2).
    destruct (H2 1 [] (VObject 1 (Object 0 (Some HookReturns) None)) y.1.2 y.2
                eq_refl) as (_ & Hc & Hd).
    eexists _, _. split; [reflexivity|]. split; [reflexivity|].
    split; [exact Hc|]. apply Hd. intros px. constructor.
Defined.

(** A transient factory that returns a constant: both resolutions
    invoke the factory and both return the same value. *)
Lemma transient_constant_repeats :
  let x := resolve 1 "answer" [] (container transient_registry) in
  let y := resolve 1 "answer" [] x.1.2 in
  factory_is_transient (transient (plain (Return (VPrim 42)))) = true /\
  ~ (forall v v', x.1.1 = Returned v -> y.1.1 = Returned v' -> v' <> v).
Proof.
  split; [reflexivity|]. intros H.
  by apply (H (VPrim 42) (VPrim 42)).
Qed.

(* ------------------------------------------------------------------ *)
(** ** Reset *)

Lemma fire_init_initCalled k v w :
  initCalled (self (fire_init k v w).1.2) = initCalled (self w) \/
  initCalled (self (fire_init k v w).1.2) = sadd (initCalled (self w)) k.
Proof.
  unfold fire_init. destruct (deferOnInit (self w)); [by left|].
  destruct (shas (initCalled (self w)) k); [by left|].
  destruct (init_hook v) as [[]|]; cbn; auto.
Qed.

Lemma complete_initCalled k f v deps chain w x :
  x <> k ->
  shas (initCalled (self (complete k f v deps chain w).1.2)) x =
  shas (initCalled (self w)) x.
Proof.
  intros Hx. unfold complete. destruct v; [done| |];
    match goal with
    | |- context [fire_init k ?v' ?w'] =>
        destruct (fire_init_initCalled k v' w') as [-> | ->]
    end;
    rewrite ?shas_sadd, ?(bool_decide_eq_false_2 (x = k)), ?orb_false_r by done;
    by destruct (factory_is_transient f).
Qed.

Lemma run_factory_initCalled resolveFn x :
  (forall k chain w, wframe w (resolveFn k chain w).1.2) ->
  (forall k chain w, shas (resolving (self w)) x = true ->
     shas (initCalled (self (resolveFn k chain w).1.2)) x =
     shas (initCalled (self w)) x) ->
  forall p chain deps w tr, shas (resolving (self w)) x = true ->
    shas (initCalled (self (run_factory resolveFn p chain deps w tr).1.2)) x =
    shas (initCalled (self w)) x.
Proof.
  intros Hfr Hrec.
  induction p as [v|o|m|k cont IH|k cont IH handler IHh];
    intros chain deps w tr Hx; cbn; [done..| |];
    specialize (Hrec k chain w Hx); specialize (Hfr k chain w);
    destruct (resolveFn k chain w) as [[[v|e|] w'] t]; cbn in *; try done.
  - rewrite IH; [done|]. destruct Hfr as [(_ & -> & _) _]. done.
  - rewrite IH; [done|]. destruct Hfr as [(_ & -> & _) _]. done.
  - rewrite IHh; [done|]. destruct Hfr as [(_ & -> & _) _]. done.
Qed.

(** While a key is active, no nested resolution changes whether it is
    marked initialized. *)
Lemma resolve_initCalled_active x fuel : forall k chain w,
  shas (resolving (self w)) x = true ->
  shas (initCalled (self (resolve fuel k chain w).1.2)) x =
  shas (initCalled (self w)) x.
Proof.
  induction fuel as [|n IH]; intros k chain w Hx; [done|].
  rewrite resolve_S. unfold resolve_step.
  destruct (mget (factories (self w)) k) as [f|].
  - destruct (if factory_is_transient f then None else mget (cache (self w)) k);
      [done|].
    destruct (shas (resolving (self w)) k) eqn:Hk; [done|].
    assert (Hne : x <> k) by congruence.
    set (w0 := with_self (set_resolving (fun s => sadd s k)) w).
    assert (Hx0 : shas (resolving (self w0)) x = true)
      by (unfold w0; cbn; by rewrite shas_sadd, Hx).
    pose proof (run_factory_initCalled (resolve n) x (resolve_frame n) IH
      (call f (TrackingProxy (chain ++ [k]))) (chain ++ [k]) [] w0
      [EvFactory (scope_id w) k] Hx0) as Hrun.
    destruct (run_factory _ _ _ _ _ _) as [[[res deps] w1] t1]. cbn in Hrun.
    destruct res as [v| |]; [|done..].
    pose proof (complete_initCalled k f v deps (chain ++ [k]) w1 x Hne) as Hc.
    destruct (complete _ _ _ _ _ _) as [[res2 w2] t2]. cbn in *. congruence.
  - destruct (ancestors w) as [|p ps]; [done|].
    by destruct (resolve n k chain _) as [[res w'] t].
Qed.

Lemma shas_foldl_sdel ks : forall s k,
  shas (foldl sdel s ks) k = shas s k && negb (shas ks k).
Proof.
  induction ks as [|x ks IH]; intros s k; cbn.
  - replace (shas [] k) with false; [by rewrite andb_true_r|].
    symmetry. apply shas_false, not_elem_of_nil.
  - rewrite IH. unfold sdel, shas.
    destruct (decide (k = x)) as [->|Hne].
    + rewrite (bool_decide_eq_false_2 (x ∈ filter _ s)), (bool_decide_eq_true_2 (x ∈ x :: ks));
        [by rewrite andb_false_r|set_solver|].
      rewrite list_elem_of_filter. naive_solver.
    + apply eq_true_iff_eq. rewrite !andb_true_iff, !negb_true_iff.
      rewrite !bool_decide_eq_true, !bool_decide_eq_false.
      rewrite list_elem_of_filter, not_elem_of_cons. naive_solver.
Qed.

Lemma mget_foldl_mdel {V} ks : forall (m : list (key * V)) k,
  mget (foldl mdel m ks) k = if shas ks k then None else mget m k.
Proof.
  induction ks as [|x ks IH]; intros m k; cbn.
  - replace (shas [] k) with false; [done|].
    symmetry. apply shas_false, not_elem_of_nil.
  - rewrite IH, mget_mdel. unfold shas.
    destruct (decide (k = x)) as [->|Hne].
    + rewrite (bool_decide_eq_true_2 (x ∈ x :: ks)) by set_solver.
      by destruct (bool_decide (x ∈ ks)).
    + destruct (decide (k ∈ ks)).
      * by rewrite !bool_decide_eq_true_2 by set_solver.
      * by rewrite !bool_decide_eq_false_2 by set_solver.
Qed.

(** What [reset] does to one of the keys it is given (or to any key,
    when called without keys). *)
Lemma reset_drops ks k r :
  ks = [] \/ k ∈ ks ->
  mget (cache (reset ks r)) k = None /\ shas (initCalled (reset ks r)) k = false.
Proof.
  intros [->|Hk].
  - split; [done|]. by apply shas_false, not_elem_of_nil.
  - destruct ks as [|x ks]; [by apply elem_of_nil in Hk|].
    apply shas_true in Hk.
    unfold reset. cbn -[foldl]. rewrite mget_foldl_mdel, shas_foldl_sdel, Hk.
    by rewrite andb_false_r.
Qed.

Lemma fire_init_fires k v w h :
  deferOnInit (self w) = false -> shas (initCalled (self w)) k = false ->
  init_hook v = Some h ->
  (fire_init k v w).2 = [EvInit (scope_id w) k] /\
  shas (initCalled (self (fire_init k v w).1.2)) k = true /\
  (forall m, h = HookRejects m ->
     pendingInit (self (fire_init k v w).1.2) = pendingInit (self w) ++ [(k, m)]).
Proof.
  intros Hd Hi Hh. unfold fire_init. rewrite Hd, Hi, Hh.
  destruct h; cbn; rewrite shas_sadd, bool_decide_eq_true_2, orb_true_r by done;
    repeat split; try done; by intros ? [= ->].
Qed.

Lemma complete_fires k f v deps chain w h :
  deferOnInit (self w) = false -> shas (initCalled (self w)) k = false ->
  init_hook v = Some h ->
  (complete k f v deps chain w).2 = [EvInit (scope_id w) k] /\
  shas (initCalled (self (complete k f v deps chain w).1.2)) k = true /\
  (forall m, h = HookRejects m ->
     pendingInit (self (complete k f v deps chain w).1.2) =
     pendingInit (self w) ++ [(k, m)]).
Proof.
  intros Hd Hi Hh. unfold complete. destruct v; [done..|].
  destruct (factory_is_transient f);
    match goal with
    | |- context [fire_init k ?v' ?w'] =>
        exact (fire_init_fires k v' w' h Hd Hi Hh)
    end.
Qed.

(** A resolution that gets past the cache check and returns: the trace
    starts with the invocation of the factory; a factory that builds its
    result returns an object allocated during the call; and the
    initialization hook of the instance, if it has one, fires unless
    deferred or already fired for the key. *)
Lemma resolve_fresh fuel k chain w f v w' t :
  mget (factories (self w)) k = Some f ->
  (if factory_is_transient f then None else mget (cache (self w)) k) = None ->
  resolve fuel k chain w = (Returned v, w', t) ->
  head t = Some (EvFactory (scope_id w) k) /\
  ((forall px, builds (call f px)) ->
   exists a o, v = VObject a o /\ next_addr w <= a < next_addr w') /\
  (forall h, deferOnInit (self w) = false ->
     shas (initCalled (self w)) k = false -> init_hook v = Some h ->
     EvInit (scope_id w) k ∈ t /\ shas (initCalled (self w')) k = true /\
     exists pend, forall m, h = HookRejects m ->
       pendingInit (self w') = pend ++ [(k, m)]).
Proof.
  intros Hf Hc. destruct fuel as [|n]; [done|].
  rewrite resolve_S. unfold resolve_step. rewrite Hf, Hc.
  destruct (shas (resolving (self w)) k) eqn:Hact; [done|].
  set (w0 := with_self (set_resolving (fun s => sadd s k)) w).
  set (px := TrackingProxy (chain ++ [k])).
  assert (Hk0 : shas (resolving (self w0)) k = true).
  { unfold w0. cbn. by rewrite shas_sadd, bool_decide_eq_true_2, orb_true_r. }
  destruct (run_factory_trace (resolve n) (call f px) (chain ++ [k]) [] w0
              [EvFactory (scope_id w) k]) as [t' Htr].
  pose proof (run_factory_frame (resolve n) (resolve_frame n) (call f px)
                (chain ++ [k]) [] w0 [EvFactory (scope_id w) k]) as Hfr.
  pose proof (run_factory_initCalled (resolve n) k (resolve_frame n)
                (resolve_initCalled_active k n) (call f px) (chain ++ [k]) [] w0
                [EvFactory (scope_id w) k] Hk0) as Hic.
  destruct (run_factory _ _ _ _ _ _) as [[[res deps] w1] t1] eqn:Hrun.
  cbn in Htr, Hfr, Hic. subst t1.
  destruct res as [v1|e|]; [|by intros [= <-]..].
  pose proof (complete_next_addr k f v1 deps (chain ++ [k]) w1) as Hna.
  pose proof (fun h => complete_fires k f v1 deps (chain ++ [k]) w1 h) as Hfire.
  destruct (complete k f v1 deps (chain ++ [k]) w1) as [[res2 w2] t2] eqn:Hcomp.
  destruct res2 as [v2|e|]; [|done..]. intros [= <- <- <-].
  apply complete_returned in Hcomp as [-> _]. split; [done|]. split.
  - intros Hb.
    destruct (run_factory_builds (resolve n) (resolve_next_addr n) _ _ _ _ _ _ _ _ _
                (Hb px) Hrun) as (a & o & -> & Ha).
    exists a, o. split; [done|]. cbn in *. lia.
  - intros h Hd Hi Hh.
    pose proof (wframe_scope_id _ _ Hfr) as Hsid.
    destruct Hfr as [(_ & _ & Hd1 & _) _]. cbn in Hd1, Hsid.
    destruct (Hfire h) as (Ht2 & Hmark & Hpend); [congruence|congruence|done|].
    cbn in Ht2, Hmark, Hpend. subst t2. rewrite Hsid.
    split; [set_solver|]. split; [done|].
    exists (pendingInit (self w1)). exact Hpend.
Qed.

(** C9 (as amended): after a singleton key has been resolved and then
    reset, the next resolution that returns has invoked the factory
    again; reset has dropped the cache entry and cleared the init flag;
    a factory that builds its result yields an object allocated after
    the reset, hence distinct from the first instance (a cached object
    being one allocated earlier); and an instance
    exposing an initialization hook gets it fired again (unless
    initialization is deferred). *)
Theorem reset_roundtrip (w : world) (k : key) (f : factory) (ks : list key)
    (fuel fuel' : nat) (chain chain' : list key)
    (v1 v2 : value) (w1 w2 : world) (t1 t2 : list event) :
  mget (factories (self w)) k = Some f ->
  factory_is_transient f = false ->
  ks = [] \/ k ∈ ks ->
  resolve fuel k chain w = (Returned v1, w1, t1) ->
  resolve fuel' k chain' (with_self (reset ks) w1) = (Returned v2, w2, t2) ->
  isResolved (reset ks (self w1)) k = false /\
  shas (initCalled (reset ks (self w1))) k = false /\
  head t2 = Some (EvFactory (scope_id w) k) /\
  isResolved (self w2) k = true /\
  ((forall px, builds (call f px)) ->
   (forall a o, mget (cache (self w)) k = Some (VObject a o) -> a < next_addr w) ->
   v2 <> v1 /\ exists a o, v2 = VObject a o /\ next_addr w1 <= a) /\
  (forall h, deferOnInit (self w) = false -> init_hook v2 = Some h ->
     EvInit (scope_id w) k ∈ t2 /\ shas (initCalled (self w2)) k = true).
Proof.
  intros Hf Hs Hks Hres1 Hres2.
  pose proof (resolve_frame fuel k chain w) as Hfr. rewrite Hres1 in Hfr.
  pose proof (wframe_scope_id _ _ Hfr) as Hsid.
  destruct Hfr as [(Hfac & _ & Hdef & _) _]. cbn in Hfac, Hdef, Hsid.
  destruct (reset_drops ks k (self w1) Hks) as [Hdrop Hflag].
  assert (Hf1 : mget (factories (self (with_self (reset ks) w1))) k = Some f).
  { cbn. destruct ks; cbn; congruence. }
  assert (Hc1 : (if factory_is_transient f then None
                 else mget (cache (self (with_self (reset ks) w1))) k) = None).
  { by rewrite Hs. }
  destruct (resolve_fresh _ _ _ _ _ _ _ _ Hf1 Hc1 Hres2) as (Hh & Hb & Hi).
  assert (Hsid' : scope_id (with_self (reset ks) w1) = scope_id w) by done.
  rewrite Hsid' in *.
  split; [unfold isResolved, mhas; by rewrite Hdrop|].
  split; [done|]. split; [done|]. split.
  { unfold isResolved, mhas.
    by rewrite (resolve_caches_singleton _ _ _ _ _ _ _ _ Hf1 Hs Hres2). }
  split.
  - intros Hbuilds Hheap. destruct (Hb Hbuilds) as (a & o & -> & Ha).
    cbn in Ha. split; [|exists a, o; split; [done|lia]].
    destruct (mget (cache (self w)) k) as [v0|] eqn:Hc0.
    + destruct fuel as [|n]; [done|].
      rewrite resolve_S in Hres1. unfold resolve_step in Hres1.
      rewrite Hf, Hs, Hc0 in Hres1. injection Hres1 as <- <- <-.
      intros <-. specialize (Hheap a o eq_refl). lia.
    + assert (Hc0' : (if factory_is_transient f then None
                      else mget (cache (self w)) k) = None) by (by rewrite Hs).
      destruct (resolve_fresh _ _ _ _ _ _ _ _ Hf Hc0' Hres1) as (_ & Hb1 & _).
      destruct (Hb1 Hbuilds) as (a1 & o1 & -> & Ha1).
      intros [= -> _]. lia.
  - intros h Hd Hh2.
    destruct (Hi h) as (Hin & Hmark & _); try done.
    cbn. destruct ks; cbn; congruence.
Qed.

Lemma reset_roundtrip_witness :
  let x := resolve 1 "service" [] (container reset_registry) in
  let y := resolve 1 "service" [] (with_self (reset ["service"]) x.1.2) in
  head y.2 = Some (EvFactory 0 "service") /\
  (exists v1 v2, x.1.1 = Returned v1 /\ y.1.1 = Returned v2 /\ v2 <> v1) /\
  EvInit 0 "service" ∈ y.2.
Proof.
  intros x y.
  assert (Hin : "service" ∈ ["service"]) by (by apply list_elem_of_singleton).
  assert (Hx : resolve 1 "service" [] (container reset_registry) =
            (Returned (VObject 0 (Object 0 (Some HookReturns) None)), x.1.2, x.2))
    by (vm_compute; reflexivity).
  assert (Hy : resolve 1 "service" [] (with_self (reset ["service"]) x.1.2) =
            (Returned (VObject 1 (Object 0 (Some HookReturns) None)), y.1.2, y.2))
    by (vm_compute; reflexivity).
  pose proof (reset_roundtrip (container reset_registry) "service"
    (plain (service (Some HookReturns) None)) ["service"] 1 1 [] []
    _ _ _ _ _ _ eq_refl eq_refl (or_intror Hin) Hx Hy)
    as (_ & _ & Hh & _ & Hb & Hi).
  split; [exact Hh|]. split.
  - exists (VObject 0 (Object 0 (Some HookReturns) None)),
      (VObject 1 (Object 0 (Some HookReturns) None)).
    split; [vm_compute; reflexivity|]. split; [vm_compute; reflexivity|].
    apply Hb; [intros px; constructor|]. intros a o Hc. discriminate Hc.
  - exact (proj1 (Hi HookReturns eq_refl eq_refl)).
Defined.

(** A singleton whose factory returns a plain value: after the reset
    the factory runs again and returns the very same value, and no
    initialization hook fires. *)
Lemma reset_plain_value_repeats :
  let x := resolve 1 "db" [] (container reset_registry) in
  let y := resolve 1 "db" [] (with_self (reset ["db"]) x.1.2) in
  isResolved (self x.1.2) "db" = true /\
  ~ (forall v1 v2, x.1.1 = Returned v1 -> y.1.1 = Returned v2 -> v2 <> v1) /\
  ~ (exists s, EvInit s "db" ∈ y.2).
Proof.
  split; [reflexivity|]. split.
  - intros H. by apply (H (VPrim 7) (VPrim 7)).
  - intros [s Hs]. cbn in Hs. apply list_elem_of_singleton in Hs. discriminate.
Qed.

(* ------------------------------------------------------------------ *)
(** ** Asynchronous initialization failures on ordinary access *)

Lemma fire_init_rejects k v w m :
  deferOnInit (self w) = false -> shas (initCalled (self w)) k = false ->
  init_hook v = Some (HookRejects m) ->
  fire_init k v w =
    (Returned v,
     with_self (set_pendingInit (fun p => p ++ [(k, m)]))
       (with_self (set_initCalled (fun s => sadd s k)) w),
     [EvInit (scope_id w) k]).
Proof. intros Hd Hi Hh. unfold fire_init. by rewrite Hd, Hi, Hh. Qed.

(** C6: on ordinary access (initialization not deferred, hook not yet
    fired for the key), when the factory has produced an instance whose
    initialization hook returns a promise that rejects with [m], the
    resolution returns that instance, having invoked the hook, and once
    the queued handler has run the warnings hold an async-init record
    with the key and [m]. *)
Theorem async_init_failure_is_warning (n : nat) (k : key) (chain : list key)
    (w : world) (f : factory) (v : value) (m : string)
    (deps : list key) (w1 : world) (t1 : list event) :
  mget (factories (self w)) k = Some f ->
  (if factory_is_transient f then None else mget (cache (self w)) k) = None ->
  shas (resolving (self w)) k = false ->
  deferOnInit (self w) = false ->
  shas (initCalled (self w)) k = false ->
  run_factory (resolve n) (call f (TrackingProxy (chain ++ [k]))) (chain ++ [k]) []
    (with_self (set_resolving (fun s => sadd s k)) w)
    [EvFactory (scope_id w) k] = (Returned v, deps, w1, t1) ->
  init_hook v = Some (HookRejects m) ->
  exists w' t,
    resolve (S n) k chain w = (Returned v, w', t) /\
    EvInit (scope_id w) k ∈ t /\
    AsyncInitError k m ∈ getWarnings (run_microtasks (self w')).
Proof.
  intros Hf Hc Hact Hd Hi Hrun Hh.
  set (w0 := with_self (set_resolving (fun s => sadd s k)) w) in *.
  assert (Hk0 : shas (resolving (self w0)) k = true).
  { unfold w0. cbn. by rewrite shas_sadd, bool_decide_eq_true_2, orb_true_r. }
  pose proof (run_factory_frame (resolve n) (resolve_frame n)
                (call f (TrackingProxy (chain ++ [k]))) (chain ++ [k]) [] w0
                [EvFactory (scope_id w) k]) as Hfr.
  pose proof (run_factory_initCalled (resolve n) k (resolve_frame n)
                (resolve_initCalled_active k n)
                (call f (TrackingProxy (chain ++ [k]))) (chain ++ [k]) [] w0
                [EvFactory (scope_id w) k] Hk0) as Hic.
  rewrite Hrun in Hfr, Hic. cbn in Hfr, Hic.
  pose proof (wframe_scope_id _ _ Hfr) as Hsid.
  destruct Hfr as [(_ & _ & Hd1 & _) _]. cbn in Hd1, Hsid.
  rewrite resolve_S. unfold resolve_step. rewrite Hf, Hc, Hact. fold w0.
  rewrite Hrun. unfold complete. destruct v as [| |a o]; [done..|].
  rewrite (fire_init_rejects k (VObject a o) _ m);
    [| by destruct (factory_is_transient f); cbn; congruence
     | by destruct (factory_is_transient f); cbn; congruence
     | done].
  eexists _, _. split; [reflexivity|]. split.
  - rewrite elem_of_app. right. apply list_elem_of_singleton. f_equal.
    by destruct (factory_is_transient f).
  - unfold getWarnings, run_microtasks. cbn.
    rewrite elem_of_app. right. apply list_elem_of_fmap.
    exists (k, m). split; [done|].
    destruct (factory_is_transient f); cbn; set_solver.
Qed.

Lemma async_init_failure_is_warning_witness :
  exists w' t,
    resolve 1 "failing" [] (container failing_registry) =
      (Returned (VObject 0 (Object 0 (Some (HookRejects "init failed!")) None)),
       w', t) /\
    EvInit 0 "failing" ∈ t /\
    AsyncInitError "failing" "init failed!" ∈ getWarnings (run_microtasks (self w')).
Proof.
  eapply (async_init_failure_is_warning 0 "failing" [] (container failing_registry));
    reflexivity.
Defined.

(* ------------------------------------------------------------------ *)
(** ** More about the transient marker *)

Import TransientEval.

(** X3: wrapping any number of times changes nothing but the mark: the
    wrapper still forwards every call to the original factory, and after
    at least one wrapping it is recognised as transient. *)
Theorem transient_iterated {C T : Type} (f : Factory C T) (n : nat) :
  (forall c, call (Nat.iter n transient f) c = call f c) /\
  isTransient (JFunction (Nat.iter (S n) transient f)) = true.
Proof.
  split; [|done].
  induction n as [|n IH]; intros c; [done|]. cbn. apply IH.
Qed.

(** X4: evaluated operator by operator, [isTransient] throws only what
    the marker lookups of a function throw.  On an ordinary value it
    ends normally with the verdict of the marker test.  On everything
    that is not a function, primitives included and whatever the traps
    of an object would do, it ends normally with [false], although the
    [in] test it contains raises a [TypeError] on every primitive: the
    [typeof] test in front keeps [in] and the property read away from
    them.  On a function the [in] test decides: its exception is the
    exception of [isTransient], its [false] is the result, and only
    after its [true] is the property read, whose exception or comparison
    with [true] is then the outcome. *)
Theorem isTransient_completion :
  (forall (C T : Type) (v : jsval C T),
     isTransient_eval (of_jsval v) = Normal (isTransient v)) /\
  (forall p,
     isTransient_eval (XPrim p) = Normal false /\
     marker_in (XPrim p) = Abrupt TypeError) /\
  (forall has get, isTransient_eval (XObject has get) = Normal false) /\
  (forall has get,
     isTransient_eval (XFunction has get) =
       match has with
       | Normal true => strict_eq_true get
       | Normal false => Normal false
       | Abrupt e => Abrupt e
       end) /\
  (forall v e,
     isTransient_eval v = Abrupt e ->
     exists has get, v = XFunction has get /\
       (has = Abrupt e \/ (has = Normal true /\ get = Abrupt e))).
Proof.
  split; [|split; [|split; [|split]]].
  - intros C T [[| |b|z|s]|[m|]|[c [m|]]]; try done.
    all: unfold isTransient_eval, of_jsval, marker_in, marker_of; cbn;
      rewrite bool_decide_eq_true_2 by eauto; done.
  - by intros [| |b|z|s].
  - done.
  - by intros [[|]|e] get.
  - intros [[| |b|z|s]|has get|has get] e; try done.
    unfold isTransient_eval; cbn. intros Hev. exists has, get. split; [done|].
    destruct has as [[|]|e']; cbn in Hev.
    + right. split; [done|]. by destruct get as [[p|]|e']; simplify_eq/=.
    + done.
    + left. by simplify_eq.
Qed.

(* ------------------------------------------------------------------ *)
(** ** Scope creation *)

Import CreateScope.

Lemma mset_fresh {V} (m : list (key * V)) (k : key) (v : V) :
  k ∉ mkeys m -> mset m k v = m ++ [(k, v)].
Proof.
  unfold mkeys. induction m as [|[k0 v0] m IH]; intros Hk; [done|]. cbn in *.
  apply not_elem_of_cons in Hk as [Hne Hk].
  rewrite decide_False by done. by rewrite IH.
Qed.

Lemma foldl_mset_fresh {V} (entries : list (key * V)) : forall acc,
  NoDup (mkeys acc ++ mkeys entries) ->
  foldl (fun m kf => mset m kf.1 kf.2) acc entries = acc ++ entries.
Proof.
  unfold mkeys. induction entries as [|[k v] entries IH]; intros acc Hnd; cbn.
  - by rewrite app_nil_r.
  - cbn in Hnd. rewrite mset_fresh.
    + rewrite IH; [by rewrite <- app_assoc|].
      rewrite fmap_app. cbn. by rewrite <- app_assoc.
    + apply NoDup_app in Hnd as (_ & Hdis & _). intros Hin.
      apply (Hdis k Hin). set_solver.
Qed.

Lemma mget_NoDup {V} (m : list (key * V)) (k : key) (v : V) :
  NoDup (mkeys m) -> (k, v) ∈ m -> mget m k = Some v.
Proof.
  unfold mkeys. induction m as [|[k0 v0] m IH]; intros Hnd Hin;
    [by apply elem_of_nil in Hin|].
  cbn in *. apply NoDup_cons in Hnd as [Hk0 Hnd].
  apply elem_of_cons in Hin as [[= -> ->]|Hin].
  - by rewrite decide_True.
  - rewrite decide_False; [by apply IH|]. intros ->. apply Hk0.
    apply list_elem_of_fmap. by exists (k0, v).
Qed.

(** X1: the registry of a new scope is the object it was given: when the
    entries of [extra] have distinct keys (as the entries of an object
    do), the Resolver is constructed over exactly these entries in their
    order, with an empty cache of its own, the parent resolver as it is,
    and the name of the options, if any. *)
Theorem createScope_registers_entries {Fn V R K : Type}
    (newResolver : list (key * Fn) -> list (key * V) -> R -> option string -> R)
    (buildContainerProxy : R -> K) (parentResolver : R)
    (extra : list (key * Fn)) (options : option ScopeOptions) :
  NoDup (mkeys extra) ->
  childFactories extra = extra /\
  createScope newResolver buildContainerProxy parentResolver extra options =
    buildContainerProxy
      (newResolver extra [] parentResolver
         (match options with Some o => name o | None => None end)) /\
  createScope newResolver buildContainerProxy parentResolver extra None =
    createScope newResolver buildContainerProxy parentResolver extra
      (Some {| name := None |}).
Proof.
  intros Hnd.
  assert (Hreg : childFactories extra = extra).
  { unfold childFactories. by rewrite foldl_mset_fresh. }
  unfold createScope. by rewrite Hreg.
Qed.

Lemma createScope_registers_entries_witness :
  childFactories
    [("requestId", mkFactory (fun _ : unit => 1%Z) None);
     ("timestamp", transient (mkFactory (fun _ : unit => 2%Z) None))] =
    [("requestId", mkFactory (fun _ : unit => 1%Z) None);
     ("timestamp", transient (mkFactory (fun _ : unit => 2%Z) None))].
Proof.
  refine (proj1 (createScope_registers_entries
    (V := unit) (R := unit) (K := unit) (fun _ _ _ _ => tt) (fun _ => tt) tt
    _ None _)).
  compute_done.
Defined.

(** X2: a scope stores the factories it is given without touching them:
    looking a key of [extra] up in the child registry returns the very
    function that was passed, so one wrapped by [transient] is still
    recognised as transient and still forwards to the factory it wraps,
    one without the mark is not transient, and a key that [extra] does
    not have is not registered in the child. *)
Theorem createScope_keeps_marks {C T : Type}
    (extra : list (key * Factory C T)) :
  NoDup (mkeys extra) ->
  (forall k f, (k, f) ∈ extra ->
     mget (childFactories extra) k = Some f) /\
  (forall k g, (k, transient g) ∈ extra ->
     exists f, mget (childFactories extra) k = Some f /\
       isTransient (JFunction f) = true /\ forall c, call f c = call g c) /\
  (forall k f, (k, f) ∈ extra -> marker f = None ->
     exists f', mget (childFactories extra) k = Some f' /\
       isTransient (JFunction f') = false) /\
  (forall k, k ∉ mkeys extra -> mget (childFactories extra) k = None).
Proof.
  intros Hnd.
  assert (Hreg : childFactories extra = extra).
  { unfold childFactories. by rewrite foldl_mset_fresh. }
  rewrite Hreg. repeat split.
  - intros k f Hin. by apply mget_NoDup.
  - intros k g Hin. exists (transient g). split; [by apply mget_NoDup|done].
  - intros k f Hin Hm. exists f. split; [by apply mget_NoDup|].
    cbn. by rewrite Hm.
  - intros k Hk. by apply mget_None_keys.
Qed.

Lemma createScope_keeps_marks_witness :
  exists f,
    mget (childFactories
            [("requestId", mkFactory (fun _ : unit => 1%Z) None);
             ("timestamp", transient (mkFactory (fun _ : unit => 2%Z) None))])
      "timestamp" = Some f /\
    isTransient (JFunction f) = true /\ forall c, call f c = 2%Z.
Proof.
  refine (proj1 (proj2 (createScope_keeps_marks
    [("requestId", mkFactory (fun _ : unit => 1%Z) None);
     ("timestamp", transient (mkFactory (fun _ : unit => 2%Z) None))] _))
    "timestamp" (mkFactory (fun _ : unit => 2%Z) None) _).
  - compute_done.
  - set_solver.
Defined.

(* ------------------------------------------------------------------ *)
(** ** The benchmark harness *)

Import Bench.

Lemma incr_exact (i : Z) : (i < max_exact)%Z -> incr i = (i + 1)%Z.
Proof. unfold incr. intros Hi. by rewrite (proj2 (Z.ltb_lt _ _) Hi). Qed.

Lemma incr_stalls (i : Z) : (i <= max_exact)%Z -> (incr i <= max_exact)%Z.
Proof. unfold incr. destruct (Z.ltb_spec i max_exact); lia. Qed.

(** A counting loop whose bound is at most [2^53] runs its body once for
    each integer from the current [i] up to the bound and then ends,
    provided the budget covers these iterations and the final test. *)
Lemma for_lt_iter {St : Type} (fn : St -> St) (bound : Z) :
  (bound <= max_exact)%Z ->
  forall fuel i s, Z.to_nat (bound - i) < fuel ->
    for_lt fuel i bound fn s = Some (Nat.iter (Z.to_nat (bound - i)) fn s).
Proof.
  intros Hb. induction fuel as [|fuel IH]; intros i s Hfuel; [lia|].
  cbn. destruct (Z.ltb_spec i bound) as [Hlt|Hge].
  - rewrite incr_exact by lia. rewrite IH by lia.
    replace (Z.to_nat (bound - i)) with (S (Z.to_nat (bound - (i + 1)))) by lia.
    by rewrite Nat.iter_succ_r.
  - replace (Z.to_nat (bound - i)) with 0 by lia. done.
Qed.

Lemma for_upto_iter {St : Type} (fn : St -> St) (bound : Z) (fuel : nat)
    (s : St) :
  (bound <= max_exact)%Z -> Z.to_nat bound < fuel ->
  for_upto fuel bound fn s = Some (Nat.iter (Z.to_nat bound) fn s).
Proof.
  intros Hb Hfuel. unfold for_upto.
  rewrite for_lt_iter by (rewrite ?Z.sub_0_r; done). by rewrite Z.sub_0_r.
Qed.

(** Above [2^53] the counter never reaches the bound: whatever the
    budget, the loop has not ended. *)
Lemma for_lt_stalls {St : Type} (fn : St -> St) (bound : Z) :
  (max_exact < bound)%Z ->
  forall fuel i s, (i <= max_exact)%Z -> for_lt fuel i bound fn s = None.
Proof.
  intros Hb. induction fuel as [|fuel IH]; intros i s Hi; [done|].
  cbn. rewrite (proj2 (Z.ltb_lt i bound)) by lia.
  apply IH. by apply incr_stalls.
Qed.

(** X5: for [ops] up to [2^53], the largest count the loop counter can
    reach, both copies of [bench] return; they run the function
    [min(ops, 1000)] times to warm up, read the clock, run it exactly
    [ops] times, and read the clock again, in this order; they leave the
    same state behind and [ops] comes back unchanged.  The warm-up never
    exceeds 1000 runs nor the timed runs, is exactly 1000 from
    [ops = 1000] on, and with [ops <= 0] the function is not run at
    all. *)
Theorem bench_runs {St num : Type} (now : St -> num * St)
    (sub mul div : num -> num -> num) (round : num -> num) (of_Z : Z -> num)
    (fuel : nat) (label : string) (fn : St -> St) (n : Z) (s : St) :
  (n <= 2 ^ 53)%Z -> Z.to_nat n < fuel ->
  let warm := Z.to_nat (Z.min n 1000) in
  let timed := Z.to_nat n in
  let final := (now (Nat.iter timed fn (now (Nat.iter warm fn s)).2)).2 in
  snd <$> bench now sub mul div round of_Z fuel label fn n s = Some final /\
  snd <$> bench_compare now sub mul div round of_Z fuel fn n s = Some final /\
  (fun r => ops r.1) <$> bench now sub mul div round of_Z fuel label fn n s =
    Some n /\
  warm <= 1000 /\ warm <= timed /\
  ((1000 <= n)%Z -> warm = 1000) /\
  ((n <= 0)%Z -> warm = 0 /\ timed = 0).
Proof.
  intros Hn Hfuel warm timed final. unfold bench, bench_compare.
  assert (Hmax : max_exact = (2 ^ 53)%Z) by done.
  rewrite !(for_upto_iter fn (Z.min n 1000)) by lia. fold warm.
  subst final. destruct (now (Nat.iter warm fn s)) as [start s2]. cbn [snd].
  rewrite !(for_upto_iter fn n) by lia. fold timed.
  destruct (now (Nat.iter timed fn s2)) as [stop s4]. cbn.
  unfold warm, timed. repeat split; lia.
Qed.

Lemma bench_runs_witness :
  snd <$> bench count_clock Z.sub Z.mul Z.div id id 4 "plain" S 3 0 = Some 6 /\
  snd <$> bench_compare count_clock Z.sub Z.mul Z.div id id 4 S 3 0 = Some 6 /\
  (fun r => ops r.1) <$>
    bench count_clock Z.sub Z.mul Z.div id id 4 "plain" S 3 0 = Some 3%Z /\
  3 <= 1000 /\ 3 <= 3 /\
  ((1000 <= 3)%Z -> 3 = 1000) /\
  ((3 <= 0)%Z -> 3 = 0 /\ 3 = 0).
Proof.
  apply (bench_runs count_clock Z.sub Z.mul Z.div id id 4 "plain" S 3 0);
    [done|cbn; lia].
Defined.

(** X6: with [ops] above [2^53] neither copy of [bench] returns, however
    long it is left to run: the warm-up ends after its 1000 runs, but
    the counter of the timed loop stops growing at [2^53] and stays
    below the bound. *)
Theorem bench_never_returns {St num : Type} (now : St -> num * St)
    (sub mul div : num -> num -> num) (round : num -> num) (of_Z : Z -> num)
    (fuel : nat) (label : string) (fn : St -> St) (n : Z) (s : St) :
  (2 ^ 53 < n)%Z ->
  bench now sub mul div round of_Z fuel label fn n s = None /\
  bench_compare now sub mul div round of_Z fuel fn n s = None /\
  (1000 < fuel ->
   for_upto fuel (Z.min n 1000) fn s = Some (Nat.iter 1000 fn s)).
Proof.
  intros Hn. unfold bench, bench_compare.
  assert (Hmax : max_exact = (2 ^ 53)%Z) by done.
  assert (Hstall : forall s', for_upto fuel n fn s' = None).
  { intros s'. apply for_lt_stalls; lia. }
  repeat split.
  - destruct (for_upto fuel (Z.min n 1000) fn s) as [s1|]; [|done].
    destruct (now s1) as [start s2]. by rewrite Hstall.
  - destruct (for_upto fuel (Z.min n 1000) fn s) as [s1|]; [|done].
    destruct (now s1) as [start s2]. by rewrite Hstall.
  - intros Hfuel. rewrite for_upto_iter by lia.
    by replace (Z.to_nat (Z.min n 1000)) with 1000 by lia.
Qed.

Lemma bench_never_returns_witness :
  bench count_clock Z.sub Z.mul Z.div id id 1002 "plain" S (2 ^ 53 + 2) 0 =
    None /\
  bench_compare count_clock Z.sub Z.mul Z.div id id 1002 S (2 ^ 53 + 2) 0 =
    None /\
  (1000 < 1002 ->
   for_upto 1002 (Z.min (2 ^ 53 + 2) 1000) S 0 = Some (Nat.iter 1000 S 0)).
Proof.
  apply (bench_never_returns count_clock Z.sub Z.mul Z.div id id 1002 "plain"
           S (2 ^ 53 + 2) 0).
  done.
Defined.
